(** * Influence maximisation by reverse influence sampling (ADFCRIS)

    A shallow embedding of [adfcris.core.coverage] (greedy maximum coverage
    over a collection of RR sets) and of [adfcris.core.ris] (generation of
    RR sets under the live-edge model), with the properties of the
    specification stated and settled over it.

    Conventions of the embedding.
    - The ids in the RR sets that the selector receives are Python ints of
      either sign, of type [Z]. The gain table is indexed with them as numpy
      indexes: an id in [-len .. -1] counts from the end of the array, and an
      id outside [-len .. len - 1] raises [IndexError].
    - The indices that the code produces itself ([range], [enumerate],
      [np.argmax], [np.flatnonzero]) and the vertex indices of the graph
      library are natural numbers; an array is a list read with [!!].
    - A Python [set] is a [gset]; iterating over it visits [elements] (some
      order, no repetition). The sets of the sampler hold array indices
      ([gset nat]) and reach the selector as sets of ints ([int_set]).
    - Exceptions are values of [exn]; fallible code lives in [result].
    - The cells of [marginal_gains] are [np.int32]: storing a length that
      does not fit raises [OverflowError], and the in-place decrement wraps.
    - Probabilities and uniform draws are rationals; only their order is
      ever inspected by the code.
    - numpy's global generator is an explicit state, threaded through the
      sampler; the two calls made on it are parameters with a contract.
    - [gt.shortest_distance] is modelled by a level-by-level breadth-first
      search filling a 32-bit distance array.
    - [adfcris.utils.graph_loader] is embedded from the point where the file
      system and [pd.read_csv] answer; both, and the memory order followed by
      [ravel("K")], are parameters. *)

From Stdlib Require Import ZArith QArith Lia Sorted.
From stdpp Require Import base gmap sets list strings fin_maps relations.

Open Scope Z_scope.
Open Scope nat_scope.

(** ** Exceptions *)

Inductive exn : Type :=
  | IndexError
  | ValueError
  | TypeError
  | OverflowError.

Inductive result (A : Type) : Type :=
  | Ok (a : A)
  | Raise (e : exn).

Arguments Ok {A} a.
Arguments Raise {A} e.

#[global] Instance result_ret : MRet result := λ A a, Ok a.

#[global] Instance result_bind : MBind result := λ A B f m,
  match m with
  | Ok a => f a
  | Raise e => Raise e
  end.

(** A [for] loop over a list whose body may raise. *)
Fixpoint for_each {A B : Type} (body : B → A → result B) (acc : B) (l : list A)
  : result B :=
  match l with
  | [] => Ok acc
  | x :: l' => acc' ← body acc x; for_each body acc' l'
  end.

(** ** 32-bit cells *)

Definition INT32_MAX : Z := 2147483647.
Definition INT32_MIN : Z := -2147483648.

Definition wrap32 (z : Z) : Z := ((z + 2147483648) mod 4294967296 - 2147483648)%Z.

(** [a[i] = n] for a Python int [n] and an [np.int32] array. *)
Definition int32_of_len (n : nat) : result Z :=
  if bool_decide (Z.of_nat n ≤ INT32_MAX)%Z then Ok (Z.of_nat n) else Raise OverflowError.

(** ** [adfcris.core.coverage] *)

Module Coverage.

(** [defaultdict(list)]: a missing key reads as the empty list. The keys are
    the elements of the RR sets, Python ints of either sign. *)
Definition dd_get (d : gmap Z (list nat)) (key : Z) : list nat :=
  default [] (d !! key).

Definition dd_append (d : gmap Z (list nat)) (key : Z) (i : nat) : gmap Z (list nat) :=
  <[key := dd_get d key ++ [i]]> d.

(** Inner loop of step 1: [for node_idx in rr_set: if node_idx < num_vertices: ...]. *)
Definition index_rr_set (num_vertices i : nat) (d : gmap Z (list nat))
    (rr_set : gset Z) : gmap Z (list nat) :=
  foldl (λ d node_idx,
           if bool_decide (node_idx < Z.of_nat num_vertices)%Z
           then dd_append d node_idx i else d)
        d (elements rr_set).

(** Step 1: [for i, rr_set in enumerate(rr_sets)]. *)
Definition build_index (rr_sets : list (gset Z)) (num_vertices : nat)
  : gmap Z (list nat) :=
  foldl (λ d '(i, rr_set), index_rr_set num_vertices i d rr_set) ∅ (imap pair rr_sets).

(** Step 2: [np.zeros(num_vertices, dtype=np.int32)], then
    [marginal_gains[i] = len(node_to_rr_indices[i])] for [i] in
    [range(num_vertices)]. *)
Definition initial_gains (node_to_rr_indices : gmap Z (list nat)) (num_vertices : nat)
  : result (list Z) :=
  for_each (λ gains i,
              g ← int32_of_len (length (dd_get node_to_rr_indices (Z.of_nat i)));
              Ok (<[i := g]> gains))
           (replicate num_vertices 0%Z) (seq 0 num_vertices).

(** [np.argmax]: index of the first occurrence of the maximum; the scan
    replaces the candidate only by a strictly larger value. *)
Fixpoint argmax_from (best_i : nat) (best_v : Z) (i : nat) (l : list Z) : nat :=
  match l with
  | [] => best_i
  | x :: l' =>
      if bool_decide (best_v < x)%Z then argmax_from i x (S i) l'
      else argmax_from best_i best_v (S i) l'
  end.

Definition argmax (l : list Z) : result nat :=
  match l with
  | [] => Raise ValueError
  | x :: l' => Ok (argmax_from 0 x 1 l')
  end.

Record state : Type := State {
  marginal_gains : list Z;
  covered_rr_mask : list bool;
  seed_set : list nat
}.

(** [a[i]] for an index the code produced itself ([range], [enumerate],
    [np.argmax]), which is never negative. *)
Definition getitem {A : Type} (a : list A) (i : nat) : result A :=
  match a !! i with
  | Some x => Ok x
  | None => Raise IndexError
  end.

(** The cell that numpy reads for [a[i]] with an int [i] of either sign and
    an array of length [len]: a negative index counts from the end, and an
    index outside [-len .. len - 1] has no cell. *)
Definition np_index (len : nat) (i : Z) : option nat :=
  if bool_decide (0 ≤ i < Z.of_nat len)%Z then Some (Z.to_nat i)
  else if bool_decide (- Z.of_nat len ≤ i < 0)%Z then Some (Z.to_nat (Z.of_nat len + i))
  else None.

(** Body of [for node_in_set in rr_set]: the table is indexed with the raw
    element of the RR set. *)
Definition decrement (gains : list Z) (node_in_set : Z) : result (list Z) :=
  match np_index (length gains) node_in_set with
  | None => Raise IndexError
  | Some cell =>
      g ← getitem gains cell;
      if bool_decide (g ≠ (-1)%Z) then Ok (<[cell := wrap32 (g - 1)]> gains)
      else Ok gains
  end.

(** Body of [for rr_index in node_to_rr_indices[best_node]]. *)
Definition cover (rr_sets : list (gset Z)) (acc : list Z * list bool) (rr_index : nat)
  : result (list Z * list bool) :=
  let '(gains, mask) := acc in
  covered ← getitem mask rr_index;
  if (covered : bool) then Ok (gains, mask)
  else
    let mask' := <[rr_index := true]> mask in
    rr_set ← getitem rr_sets rr_index;
    gains' ← for_each decrement gains (elements rr_set);
    Ok (gains', mask').

(** One pass through the body of [for _ in range(k)]: [None] is [break]. *)
Definition select_step (rr_sets : list (gset Z))
    (node_to_rr_indices : gmap Z (list nat)) (st : state) : result (option state) :=
  best_node ← argmax (marginal_gains st);
  g ← getitem (marginal_gains st) best_node;
  if bool_decide (g = 0%Z) then Ok None
  else
    let seeds := seed_set st ++ [best_node] in
    let gains := <[best_node := (-1)%Z]> (marginal_gains st) in
    '(gains', mask') ← for_each (cover rr_sets) (gains, covered_rr_mask st)
                                (dd_get node_to_rr_indices (Z.of_nat best_node));
    Ok (Some (State gains' mask' seeds)).

(** [for _ in range(k)] with its [break]. *)
Fixpoint select_loop (rr_sets : list (gset Z))
    (node_to_rr_indices : gmap Z (list nat)) (k : nat) (st : state) : result state :=
  match k with
  | O => Ok st
  | S k' =>
      r ← select_step rr_sets node_to_rr_indices st;
      match r with
      | None => Ok st
      | Some st' => select_loop rr_sets node_to_rr_indices k' st'
      end
  end.

Definition initial_state (rr_sets : list (gset Z)) (num_vertices : nat) : result state :=
  gains ← initial_gains (build_index rr_sets num_vertices) num_vertices;
  Ok (State gains (replicate (length rr_sets) false) []).

Definition find_seed_set (rr_sets : list (gset Z)) (k : Z) (num_vertices : nat)
  : result (list nat) :=
  if bool_decide (rr_sets = []) || bool_decide (k = 0%Z) then Ok []
  else
    st0 ← initial_state rr_sets num_vertices;
    st ← select_loop rr_sets (build_index rr_sets num_vertices) (Z.to_nat k) st0;
    Ok (seed_set st).

End Coverage.

(** ** [adfcris.core.ris] *)

Module Ris.

(** *** The graph library, as far as the sampler uses it *)

(** An edge property map: the name of its value type and its array [.a],
    one entry per edge in edge-index order. *)
Record PropertyMap : Type := {
  value_type : string;
  a : list Q
}.

(** A directed graph on the vertices [0 .. num_vertices - 1]; the position
    of an edge in [edges] is its index. *)
Record Graph : Type := {
  num_vertices : nat;
  edges : list (nat * nat);
  edge_properties : gmap string PropertyMap
}.

Definition num_edges (g : Graph) : nat := length (edges g).

(** A filtered or reversed view of a graph. *)
Record GraphView : Type := {
  view_num_vertices : nat;
  view_edges : list (nat * nat)
}.

(** [GraphView(g, efilt=edge_active)]: keep the edges whose flag is set. *)
Definition graph_view_efilt (g : Graph) (edge_active : list bool) : GraphView :=
  {| view_num_vertices := num_vertices g;
     view_edges := fst <$> filter (λ eb, eb.2 = true) (zip (edges g) edge_active) |}.

(** [GraphView(g, reversed=True)]: every edge swaps source and target. *)
Definition graph_view_reversed (g : GraphView) : GraphView :=
  {| view_num_vertices := view_num_vertices g;
     view_edges := (λ e, (e.2, e.1)) <$> view_edges g |}.

(** One edge of a search round: a target not yet reached, whose source was
    reached before the round started, gets distance [d + 1]. *)
Definition relax (d : Z) (dist0 acc : list Z) (e : nat * nat) : list Z :=
  match dist0 !! e.1, acc !! e.2 with
  | Some ds, Some dt =>
      if bool_decide (ds < INT32_MAX)%Z && bool_decide (dt = INT32_MAX)
      then <[e.2 := (d + 1)%Z]> acc
      else acc
  | _, _ => acc
  end.

Definition bfs_round (es : list (nat * nat)) (d : Z) (dist : list Z) : list Z :=
  foldl (relax d dist) dist es.

(** The distance array after [j] rounds of breadth-first search. *)
Fixpoint bfs_levels (j : nat) (es : list (nat * nat)) (dist0 : list Z) : list Z :=
  match j with
  | O => dist0
  | S j' => bfs_round es (Z.of_nat j') (bfs_levels j' es dist0)
  end.

(** [gt.shortest_distance(g, source=source)] without weights: the array of
    32-bit hop counts from [source]; a vertex that cannot be reached keeps
    the largest 32-bit value. *)
Definition shortest_distance (g : GraphView) (source : nat) : list Z :=
  bfs_levels (view_num_vertices g) (view_edges g)
             (<[source := 0%Z]> (replicate (view_num_vertices g) INT32_MAX)).

(** *** numpy *)

Definition Qlt_bool (x y : Q) : bool := (Qnum x * QDen y <? Qnum y * QDen x)%Z.

(** [np.greater(x, y)]: elementwise [x > y]. *)
Definition np_greater (x y : list Q) : list bool :=
  zip_with (λ xi yi, Qlt_bool yi xi) x y.

(** [np.flatnonzero(b)]: the indices of the true entries, increasing. *)
Definition flatnonzero (b : list bool) : list nat :=
  filter (λ i, b !! i = Some true) (seq 0 (length b)).

(** [needle in haystack] for strings. *)
Definition contains (needle haystack : string) : bool :=
  match String.index 0 needle haystack with
  | Some _ => true
  | None => false
  end.

(** *** The sampler *)

(** The part of [generate_rr_set] that follows the two random draws. *)
Definition rr_set_of (g : Graph) (p_map : PropertyMap) (root_node : nat)
    (random_values : list Q) : gset nat :=
  let edge_active := np_greater (a p_map) random_values in
  let g_random_instance := graph_view_efilt g edge_active in
  let g_reversed := graph_view_reversed g_random_instance in
  let dist := shortest_distance g_reversed root_node in
  let reachable_nodes := flatnonzero ((λ d, bool_decide (d < INT32_MAX)%Z) <$> dist) in
  list_to_set reachable_nodes.

Section RandomSource.
(** The state of numpy's global generator is threaded explicitly. *)
Context {RNG : Type}.
(** [np.random.randint(low, high)] *)
Variable randint : nat → nat → RNG → nat * RNG.
(** [np.random.rand(m)] *)
Variable rand : nat → RNG → list Q * RNG.

Definition generate_rr_set (g : Graph) (p_map : PropertyMap) (rng : RNG)
  : gset nat * RNG :=
  if bool_decide (num_vertices g = 0) then (∅, rng)
  else
    let '(root_node, rng1) := randint 0 (num_vertices g) rng in
    let '(random_values, rng2) := rand (num_edges g) rng1 in
    (rr_set_of g p_map root_node random_values, rng2).

(** [[generate_rr_set(g, p_map) for _ in range(m)]] *)
Fixpoint sample_times (m : nat) (g : Graph) (p_map : PropertyMap) (rng : RNG)
  : list (gset nat) * RNG :=
  match m with
  | O => ([], rng)
  | S m' =>
      let '(rr_set, rng1) := generate_rr_set g p_map rng in
      let '(rest, rng2) := sample_times m' g p_map rng1 in
      (rr_set :: rest, rng2)
  end.

Definition generate_rr_sets_collection (g : Graph) (num_samples : Z) (rng : RNG)
  : result (list (gset nat)) * RNG :=
  if bool_decide (num_samples ≤ 0)%Z then (Ok [], rng)
  else
    match edge_properties g !! "p"%string with
    | None => (Raise ValueError, rng)
    | Some p_map =>
        if negb (contains "float" (value_type p_map))
           && negb (contains "double" (value_type p_map))
        then (Raise TypeError, rng)
        else
          let '(rr_sets, rng') := sample_times (Z.to_nat num_samples) g p_map rng in
          (Ok rr_sets, rng')
    end.

End RandomSource.

End Ris.


(** ** Vocabulary of the selector's specification *)

Module CoverageSpec.

(** Every id occurring in an RR set is strictly less than [num_vertices]. *)
Definition below_num_vertices (rr_sets : list (gset Z)) (num_vertices : nat) : Prop :=
  ∀ rr_set v, rr_set ∈ rr_sets → v ∈ rr_set → (v < Z.of_nat num_vertices)%Z.

(** Every id occurring in an RR set is a vertex: it lies in
    [0 .. num_vertices - 1]. *)
Definition in_bounds (rr_sets : list (gset Z)) (num_vertices : nat) : Prop :=
  ∀ rr_set v, rr_set ∈ rr_sets → v ∈ rr_set → (0 ≤ v < Z.of_nat num_vertices)%Z.

(** An RR set of the sampler, whose elements are array indices, seen as the
    set of Python ints that the selector receives. *)
Definition int_set (rr_set : gset nat) : gset Z := set_map Z.of_nat rr_set.

(** The RR sets that contain vertex [v] and whose mask entry is false. *)
Definition uncovered_containing (rr_sets : list (gset Z)) (mask : list bool) (v : nat)
  : list (gset Z * bool) :=
  filter (λ p, Z.of_nat v ∈ p.1 ∧ p.2 = false) (zip rr_sets mask).

Definition count_uncovered (rr_sets : list (gset Z)) (mask : list bool) (v : nat) : nat :=
  length (uncovered_containing rr_sets mask v).

(** Positions of the RR sets that contain the id [v]. *)
Fixpoint positions (v : Z) (rr_sets : list (gset Z)) : list nat :=
  match rr_sets with
  | [] => []
  | s :: rr' => (if bool_decide (v ∈ s) then [0] else []) ++ (S <$> positions v rr')
  end.

(** [r] is the index of the first occurrence of the maximum of [l]. *)
Definition first_max (l : list Z) (r : nat) : Prop :=
  ∃ g, l !! r = Some g
       ∧ (∀ u gu, l !! u = Some gu → (gu ≤ g)%Z)
       ∧ (∀ u gu, l !! u = Some gu → u < r → (gu < g)%Z).

(** The gain table agrees with the covered mask: a selected vertex carries
    the sentinel, any other vertex the number of uncovered RR sets that
    contain it. *)
Definition gain_invariant (rr_sets : list (gset Z)) (num_vertices : nat)
    (gains : list Z) (mask : list bool) (seeds : list nat) : Prop :=
  length gains = num_vertices
  ∧ length mask = length rr_sets
  ∧ ∀ v, v < num_vertices →
      ∃ g, gains !! v = Some g
           ∧ (g ≤ INT32_MAX)%Z
           ∧ (v ∈ seeds → g = (-1)%Z)
           ∧ (v ∉ seeds → g = Z.of_nat (count_uncovered rr_sets mask v)).

Definition state_invariant (rr_sets : list (gset Z)) (num_vertices : nat)
    (st : Coverage.state) : Prop :=
  gain_invariant rr_sets num_vertices (Coverage.marginal_gains st)
                 (Coverage.covered_rr_mask st) (Coverage.seed_set st).

(** What holds of the tables whatever the ids are: their lengths, and the
    sentinel in the cell of every selected vertex. *)
Definition table_shape (rr_sets : list (gset Z)) (num_vertices : nat)
    (st : Coverage.state) : Prop :=
  length (Coverage.marginal_gains st) = num_vertices
  ∧ length (Coverage.covered_rr_mask st) = length rr_sets
  ∧ ∀ v, v ∈ Coverage.seed_set st → Coverage.marginal_gains st !! v = Some (-1)%Z.

End CoverageSpec.

(** ** Sample inputs of the selector *)

Module CoverageExamples.

(** Three RR sets over the vertices 0, 1, 2. *)
Definition sample_rr_sets : list (gset Z) := [{[0; 1]}; {[1]}; {[2]}]%Z.

Definition sample_state0 : Coverage.state :=
  Coverage.State [1; 2; 1]%Z [false; false; false] [].

Definition sample_state1 : Coverage.state :=
  Coverage.State [0; -1; 1]%Z [true; true; false] [1].

(** A single RR set that every vertex of a one-vertex graph covers. *)
Definition singleton_rr_sets : list (gset Z) := [{[0]}]%Z.

(** An RR set naming vertex 5 of a two-vertex graph. *)
Definition stray_rr_sets : list (gset Z) := [{[0; 5]}]%Z.

(** RR sets holding a negative int next to vertices of a two-vertex graph:
    [-1] is the last cell of the table for numpy, [-5] is no cell at all. *)
Definition wrapping_rr_sets : list (gset Z) := [{[0; -1]}; {[1]}]%Z.

Definition wrapping_state0 : Coverage.state :=
  Coverage.State [1; 1]%Z [false; false] [].

Definition wrapping_state1 : Coverage.state :=
  Coverage.State [-1; 0]%Z [true; false] [0].

Definition far_negative_rr_sets : list (gset Z) := [{[0; -5]}]%Z.

End CoverageExamples.

(** ** Vocabulary of the sampler's specification *)

Module RisSpec.
Import Ris.

(** What the graph library guarantees of a graph: edges join existing
    vertices, and hop counts fit the 32-bit distance array. *)
Definition wf_graph (g : Graph) : Prop :=
  (∀ s t, (s, t) ∈ edges g → s < num_vertices g ∧ t < num_vertices g)
  ∧ (Z.of_nat (num_vertices g) < INT32_MAX)%Z.

(** A property map of [g] has one entry per edge. *)
Definition wf_property_map (g : Graph) (p_map : PropertyMap) : Prop :=
  length (a p_map) = num_edges g.

Definition edge_rel (g : Graph) (s t : nat) : Prop := (s, t) ∈ edges g.

(** [v] is an ancestor of [root]: some directed path leads from [v] to
    [root] (the empty path included). *)
Definition ancestor (g : Graph) (root v : nat) : Prop := rtc (edge_rel g) v root.

(** The vertices with a finite entry in a distance array. *)
Definition reached (dist : list Z) : gset nat :=
  list_to_set (flatnonzero ((λ d, bool_decide (d < INT32_MAX)%Z) <$> dist)).

Definition unit_draw (u : Q) : Prop := (0 <= u)%Q ∧ (u < 1)%Q.

(** The contracts of the two generator calls. *)
Definition randint_contract {RNG : Type} (randint : nat → nat → RNG → nat * RNG) : Prop :=
  ∀ low high s, low < high → low ≤ (randint low high s).1 < high.

Definition rand_contract {RNG : Type} (rand : nat → RNG → list Q * RNG) : Prop :=
  ∀ m s, length (rand m s).1 = m ∧ Forall unit_draw (rand m s).1.

(** The generator state after [i] calls of the sampler. *)
Fixpoint rng_after {RNG : Type} (randint : nat → nat → RNG → nat * RNG)
    (rand : nat → RNG → list Q * RNG) (g : Graph) (p_map : PropertyMap)
    (i : nat) (rng : RNG) : RNG :=
  match i with
  | O => rng
  | S i' => rng_after randint rand g p_map i' (generate_rr_set randint rand g p_map rng).2
  end.

(** The value type of a property map names a floating-point kind. *)
Definition floating_kind (vt : string) : Prop :=
  contains "float" vt = true ∨ contains "double" vt = true.


Definition passes_validation (g : Graph) : Prop :=
  ∃ p_map, edge_properties g !! "p"%string = Some p_map
           ∧ floating_kind (value_type p_map).

End RisSpec.

(** ** Sample inputs of the sampler *)

Module RisExamples.
Import Ris.

(** A generator that counts: the state is the number of draws made so far,
    integers cycle through the requested range and uniform draws through
    the quarters of the unit interval. *)
Definition counter_randint (low high : nat) (s : nat) : nat * nat :=
  (low + s mod (high - low), S s).

Definition counter_rand (m : nat) (s : nat) : list Q * nat :=
  ((λ i, Z.of_nat ((s + i) mod 4) # 4) <$> seq 0 m, S s).

Definition constant_map (vt : string) (p : Q) (m : nat) : PropertyMap :=
  {| value_type := vt; a := replicate m p |}.

(** The scenario graph: 0→1, 1→2, 3→2, every probability 1. *)
Definition chain_graph : Graph :=
  {| num_vertices := 4;
     edges := [(0, 1); (1, 2); (3, 2)];
     edge_properties := {[ "p"%string := constant_map "double" 1 3 ]} |}.

(** The same edges, every probability 0. *)
Definition silent_graph : Graph :=
  {| num_vertices := 4;
     edges := [(0, 1); (1, 2); (3, 2)];
     edge_properties := {[ "p"%string := constant_map "double" 0 3 ]} |}.



Definition empty_graph : Graph :=
  {| num_vertices := 0; edges := []; edge_properties := ∅ |}.

End RisExamples.

(** ** [adfcris.utils.graph_loader] *)

Module Loader.
Import Ris.

(** The exceptions of the loader. [ReadError] stands for whatever
    [pd.read_csv] raises; the loader re-raises it unchanged. [MissingKey] is
    not an exception of the code: it marks the place where a node id absent
    from the dictionary would make [Series.map] produce NaN. *)
Inductive load_exn : Type :=
  | FileNotFoundError
  | ReadError (what : string)
  | NotImplementedError
  | MissingKey.

Inductive compression : Type :=
  | Gzip
  | Infer.

(** [s.endswith(suffix)] *)
Definition ends_with (suffix s : string) : bool :=
  let n := String.length s in
  let m := String.length suffix in
  bool_decide (m ≤ n) && String.eqb (String.substring (n - m) m s) suffix.

(** Keeping the first occurrence of every element, in order: what
    [DataFrame.drop_duplicates] does to rows and [pd.unique] to values. *)
Fixpoint keep_first {A : Type} `{EqDecision A} (seen : list A) (l : list A) : list A :=
  match l with
  | [] => []
  | x :: l' =>
      if decide (x ∈ seen) then keep_first seen l'
      else x :: keep_first (x :: seen) l'
  end.

Definition drop_duplicates (edge_df : list (Z * Z)) : list (Z * Z) :=
  keep_first [] edge_df.

Definition pd_unique (values : list Z) : list Z := keep_first [] values.

(** [edge_df[edge_df["source"] != edge_df["target"]]] *)
Definition drop_self_loops (edge_df : list (Z * Z)) : list (Z * Z) :=
  filter (λ r, r.1 ≠ r.2) edge_df.

(** [{original_id: i for i, original_id in enumerate(unique_nodes)}] *)
Definition original_to_compact_of (unique_nodes : list Z) : gmap Z nat :=
  foldl (λ d '(i, original_id), <[original_id := i]> d) ∅ (imap pair unique_nodes).

(** [{i: original_id for i, original_id in enumerate(unique_nodes)}] *)
Definition compact_to_original_of (unique_nodes : list Z) : gmap nat Z :=
  foldl (λ d '(i, original_id), <[i := original_id]> d) ∅ (imap pair unique_nodes).

(** [series.map(d).values]: [None] where a key is missing. *)
Definition series_map (d : gmap Z nat) (series : list Z) : option (list nat) :=
  mapM (λ x, d !! x) series.

(** [np.column_stack((x, y))] *)
Definition column_stack (x y : list nat) : list (nat * nat) := zip x y.

(** [g = gt.Graph(directed=directed); g.add_edge_list(compact_edges,
    hashed=False)]: the edges in the given order, and as many vertices as
    the largest endpoint requires. *)
Definition vertices_needed (compact_edges : list (nat * nat)) : nat :=
  foldr (λ e acc, S (e.1 `max` e.2) `max` acc) 0 compact_edges.

(** [p = g.new_edge_property("double"); p.a.fill(prop_value)] *)
Definition filled_double_map (m : nat) (prop_value : Q) : PropertyMap :=
  {| value_type := "double"; a := replicate m prop_value |}.

(** What the loader returns: the graph with its direction flag, and the
    map from compact ids back to the ids of the file. *)
Record loaded : Type := {
  is_directed : bool;
  graph : Graph;
  compact_to_original : gmap nat Z
}.

Section Environment.
(** The file system and the data-frame library. *)
Variable path_exists : string → bool.
(** [pd.read_csv(path, sep=sep, header=None, names=["source", "target"],
    comment=comment, engine="c", dtype=np.int64, compression=compression)] *)
Variable read_csv : string → string → option string → compression
                    → load_exn + list (Z * Z).
(** [edge_df[["source", "target"]].values.ravel("K")]: the entries of the
    two columns in the order of the frame's memory layout. *)
Variable ravel_K : list (Z * Z) → list Z.

Definition load_graph_from_edge_list (file_path : string) (directed : bool)
    (sep : string) (comment : option string) (prop_type : string) (prop_value : Q)
  : load_exn + loaded :=
  if negb (path_exists file_path) then inl FileNotFoundError
  else
    let compression := if ends_with ".gz" file_path then Gzip else Infer in
    match read_csv file_path sep comment compression with
    | inl e => inl e
    | inr edge_df =>
        let edge_df := drop_duplicates edge_df in
        let edge_df := drop_self_loops edge_df in
        let unique_nodes := pd_unique (ravel_K edge_df) in
        let original_to_compact := original_to_compact_of unique_nodes in
        let compact_to_original := compact_to_original_of unique_nodes in
        match series_map original_to_compact (edge_df.*1),
              series_map original_to_compact (edge_df.*2) with
        | Some compact_source, Some compact_target =>
            let compact_edges := column_stack compact_source compact_target in
            let p := filled_double_map (length compact_edges) prop_value in
            if String.eqb prop_type "uniform"
            then inr {| is_directed := directed;
                        graph := {| num_vertices := vertices_needed compact_edges;
                                    edges := compact_edges;
                                    edge_properties := {[ "p"%string := p ]} |};
                        compact_to_original := compact_to_original |}
            else inl NotImplementedError
        | _, _ => inl MissingKey
        end
    end.

End Environment.

End Loader.

(** ** Vocabulary of the loader's specification *)

Module LoaderSpec.

(** [ravel] enumerates the entries of both columns, in some order. *)
Definition ravel_contract (ravel_K : list (Z * Z) → list Z) : Prop :=
  ∀ rows x, x ∈ ravel_K rows ↔ ∃ r, r ∈ rows ∧ (x = r.1 ∨ x = r.2).

(** The rows of the file that survive the cleaning. *)
Definition cleaned (rows : list (Z * Z)) : list (Z * Z) :=
  Loader.drop_self_loops (Loader.drop_duplicates rows).

(** [x] stands at position [i] of [l] and at no earlier position. *)
Definition first_at {A : Type} (l : list A) (i : nat) (x : A) : Prop :=
  l !! i = Some x ∧ ∀ j, j < i → l !! j ≠ Some x.

(** The compact edge [e] stands for the row [r]: its endpoints are the
    positions of the row's ids in the list of distinct ids. *)
Definition translates (unique_nodes : list Z) (r : Z * Z) (e : nat * nat) : Prop :=
  unique_nodes !! e.1 = Some r.1 ∧ unique_nodes !! e.2 = Some r.2.

End LoaderSpec.

(** ** Sample inputs of the loader *)

Module LoaderExamples.
Import Loader.

(** Column by column: all sources, then all targets. *)
Definition ravel_columns (rows : list (Z * Z)) : list Z := rows.*1 ++ rows.*2.

Definition sample_rows : list (Z * Z) :=
  [(10, 20); (20, 30); (10, 20); (30, 30); (40, 30)]%Z.

(** A file system with one readable file and one that cannot be parsed. *)
Definition sample_exists (path : string) : bool :=
  String.eqb path "edges.txt" || String.eqb path "broken.txt".

Definition sample_read_csv (path sep : string) (comment : option string)
    (c : compression) : load_exn + list (Z * Z) :=
  if String.eqb path "edges.txt" then inr sample_rows else inl (ReadError "ParserError").

Definition sample_loaded : loaded :=
  {| is_directed := true;
     graph := {| Ris.num_vertices := 4;
                 Ris.edges := [(0, 1); (1, 3); (2, 3)];
                 Ris.edge_properties :=
                   {[ "p"%string := filled_double_map 3 (1 # 10) ]} |};
     compact_to_original := {[ 0 := 10%Z; 1 := 20%Z; 2 := 40%Z; 3 := 30%Z ]} |}.

End LoaderExamples.

(** ** Further vocabulary of the selector *)

Module SelectionSpec.

(** RR set number [i] contains one of the [seeds]. *)
Definition covered_by (rr_sets : list (gset Z)) (seeds : list nat) (i : nat) : Prop :=
  ∃ v s, v ∈ seeds ∧ rr_sets !! i = Some s ∧ Z.of_nat v ∈ s.

(** The states the selection loop passes through, for a collection and a
    vertex count: the state after [j] passes (or after the [break]). *)
Definition reachable (rr_sets : list (gset Z)) (num_vertices : nat)
    (st : Coverage.state) : Prop :=
  ∃ st0 j,
    Coverage.initial_state rr_sets num_vertices = Ok st0
    ∧ Coverage.select_loop rr_sets (Coverage.build_index rr_sets num_vertices) j st0
      = Ok st.

End SelectionSpec.

(** ** Further vocabulary of the sampler *)

Module SamplingSpec.
Import Ris.

(** The edge [s → t] is live in the sample: it is an edge of [g] whose
    uniform draw lies strictly below its probability. *)
Definition live_edge (g : Graph) (p_map : PropertyMap) (random_values : list Q)
    (s t : nat) : Prop :=
  ∃ i p u, edges g !! i = Some (s, t) ∧ a p_map !! i = Some p
           ∧ random_values !! i = Some u ∧ (u < p)%Q.

End SamplingSpec.

(** * Properties of the greedy selector *)

Module CoverageFacts.
Import Coverage CoverageSpec.

Lemma argmax_from_first_max (l pre : list Z) (bi : nat) (bv : Z) :
  first_max pre bi → pre !! bi = Some bv →
  first_max (pre ++ l) (argmax_from bi bv (length pre) l).
Proof.
  revert pre bi bv. induction l as [|x l IH]; intros pre bi bv Hfm Hbi; simpl.
  - by rewrite app_nil_r.
  - destruct Hfm as (g & Hg & Hmax & Hfirst).
    assert (g = bv) as -> by congruence.
    assert (Hcons : pre ++ x :: l = (pre ++ [x]) ++ l) by by rewrite <- app_assoc.
    assert (Hlen : S (length pre) = length (pre ++ [x])).
    { rewrite length_app. simpl. lia. }
    rewrite Hcons, Hlen. case_bool_decide as Hlt.
    + apply IH.
      * exists x. split; [|split].
        -- rewrite lookup_app_r by lia. by rewrite Nat.sub_diag.
        -- intros u gu Hu. apply lookup_app_Some in Hu as [Hu|[Hge Hu]].
           ++ specialize (Hmax _ _ Hu). lia.
           ++ destruct (u - length pre) eqn:E; simpl in Hu; [|done].
              injection Hu as ->. lia.
        -- intros u gu Hu Hur. rewrite lookup_app_l in Hu by lia.
           specialize (Hmax _ _ Hu). lia.
      * rewrite lookup_app_r by lia. by rewrite Nat.sub_diag.
    + apply IH.
      * exists bv. split; [|split].
        -- apply lookup_app_l_Some. done.
        -- intros u gu Hu. apply lookup_app_Some in Hu as [Hu|[Hge Hu]].
           ++ eauto.
           ++ destruct (u - length pre) eqn:E; simpl in Hu; [|done].
              injection Hu as ->. lia.
        -- intros u gu Hu Hur. apply lookup_lt_Some in Hbi.
           rewrite lookup_app_l in Hu by lia. eauto.
      * apply lookup_app_l_Some. done.
Qed.

Lemma argmax_first_max (l : list Z) (r : nat) :
  argmax l = Ok r → first_max l r.
Proof.
  destruct l as [|x l]; simpl; [done|]. intros [= <-].
  apply (argmax_from_first_max l [x] 0 x); [|done].
  exists x. split; [done|]. split.
  - intros [|u] gu Hu; simpl in Hu; [|done]. injection Hu as ->. lia.
  - intros u gu _ Hu. lia.
Qed.

Lemma argmax_raises (l : list Z) (e : exn) :
  argmax l = Raise e → l = [] ∧ e = ValueError.
Proof. destruct l; simpl; [by intros [= <-]|done]. Qed.

(** *** Loops *)

Lemma for_each_invariant {A B : Type} (I : B → Prop) (body : B → A → result B)
    (l : list A) (acc r : B) :
  (∀ b x b', x ∈ l → I b → body b x = Ok b' → I b') →
  I acc → for_each body acc l = Ok r → I r.
Proof.
  revert acc. induction l as [|x l IH]; intros acc Hbody Hacc; simpl.
  - by intros [= <-].
  - destruct (body acc x) as [acc'|e] eqn:E; simpl; [|done].
    apply IH.
    + intros b y b' Hy. apply Hbody. by right.
    + eapply Hbody; [by left|done..].
Qed.

Lemma for_each_raises {A B : Type} (I : B → Prop) (body : B → A → result B)
    (l : list A) (acc : B) (e : exn) :
  (∀ b x b', x ∈ l → I b → body b x = Ok b' → I b') →
  I acc → for_each body acc l = Raise e →
  ∃ b x, x ∈ l ∧ I b ∧ body b x = Raise e.
Proof.
  revert acc. induction l as [|x l IH]; intros acc Hbody Hacc; simpl; [done|].
  destruct (body acc x) as [acc'|e'] eqn:E; simpl.
  - intros (b & y & Hy & Hb)%IH.
    + exists b, y. split; [by right|done].
    + intros b y b' Hy. apply Hbody. by right.
    + eapply Hbody; [by left|done..].
  - intros [= ->]. exists acc, x. split; [by left|done].
Qed.

Lemma for_each_cons_ok {A B : Type} (body : B → A → result B)
    (x : A) (l : list A) (acc r : B) :
  for_each body acc (x :: l) = Ok r →
  ∃ acc', body acc x = Ok acc' ∧ for_each body acc' l = Ok r.
Proof. simpl. destruct (body acc x) as [acc'|e]; simpl; [eauto|done]. Qed.

(** *** The inverted index *)

Lemma dd_get_append (d : gmap Z (list nat)) (key : Z) (i : nat) (v : Z) :
  dd_get (dd_append d key i) v
  = if bool_decide (v = key) then dd_get d key ++ [i] else dd_get d v.
Proof.
  unfold dd_append. unfold dd_get at 1. case_bool_decide as Hv.
  - subst. by rewrite lookup_insert_eq.
  - by rewrite lookup_insert_ne.
Qed.

Lemma index_nodes_get (n i : nat) (l : list Z) (d : gmap Z (list nat)) (v : Z) :
  NoDup l →
  dd_get (foldl (λ d node_idx,
                   if bool_decide (node_idx < Z.of_nat n)%Z
                   then dd_append d node_idx i else d) d l) v
  = dd_get d v ++ (if bool_decide ((v < Z.of_nat n)%Z ∧ v ∈ l) then [i] else []).
Proof.
  intros Hnd. revert d. induction Hnd as [|x l Hx Hnd IH]; intros d; simpl.
  - rewrite bool_decide_eq_false_2; [by rewrite app_nil_r|].
    intros [_ H]. by apply elem_of_nil in H.
  - rewrite IH. destruct (decide (x < Z.of_nat n)%Z) as [Hxn|Hxn].
    + rewrite (bool_decide_eq_true_2 (x < Z.of_nat n)%Z) by done.
      rewrite dd_get_append. destruct (decide (v = x)) as [->|Hvx].
      * rewrite (bool_decide_eq_true_2 (x = x)) by done.
        rewrite (bool_decide_eq_false_2 ((x < Z.of_nat n)%Z ∧ x ∈ l)) by (by intros [_ ?]).
        rewrite bool_decide_eq_true_2; [by rewrite app_nil_r|].
        split; [done|by left].
      * rewrite (bool_decide_eq_false_2 (v = x)) by done.
        rewrite (bool_decide_ext ((v < Z.of_nat n)%Z ∧ v ∈ x :: l)
                                 ((v < Z.of_nat n)%Z ∧ v ∈ l)); [done|].
        rewrite elem_of_cons. intuition congruence.
    + rewrite (bool_decide_eq_false_2 (x < Z.of_nat n)%Z) by done.
      rewrite (bool_decide_ext ((v < Z.of_nat n)%Z ∧ v ∈ x :: l)
                               ((v < Z.of_nat n)%Z ∧ v ∈ l)); [done|].
      rewrite elem_of_cons.
      split; [|intuition]. intros [Hvn [->|Hl]]; [lia|done].
Qed.

Lemma index_rr_set_get (n i : nat) (d : gmap Z (list nat)) (s : gset Z) (v : Z) :
  dd_get (index_rr_set n i d s) v
  = dd_get d v ++ (if bool_decide ((v < Z.of_nat n)%Z ∧ v ∈ s) then [i] else []).
Proof.
  unfold index_rr_set. rewrite index_nodes_get by apply NoDup_elements.
  rewrite (bool_decide_ext ((v < Z.of_nat n)%Z ∧ v ∈ elements s)
                           ((v < Z.of_nat n)%Z ∧ v ∈ s)); [done|].
  by rewrite elem_of_elements.
Qed.

Lemma build_from_get (n : nat) (rr : list (gset Z))
    (f : nat → gset Z → nat * gset Z) (h : nat → nat)
    (d : gmap Z (list nat)) (v : Z) :
  (∀ j s, f j s = (h j, s)) →
  dd_get (foldl (λ d '(i, rr_set), index_rr_set n i d rr_set) d (imap f rr)) v
  = dd_get d v ++ (if bool_decide (v < Z.of_nat n)%Z then h <$> positions v rr else []).
Proof.
  revert f h d. induction rr as [|s rr IH]; intros f h d Hf; simpl.
  - case_bool_decide; by rewrite app_nil_r.
  - rewrite Hf. rewrite (IH (f ∘ S) (h ∘ S)) by (intros j s'; apply Hf).
    rewrite index_rr_set_get, <- app_assoc. f_equal.
    destruct (decide (v < Z.of_nat n)%Z) as [Hvn|Hvn].
    + rewrite (bool_decide_eq_true_2 (v < Z.of_nat n)%Z) by done.
      rewrite fmap_app, <- list_fmap_compose.
      destruct (decide (v ∈ s)) as [Hvs|Hvs].
      * rewrite (bool_decide_eq_true_2 (v ∈ s)) by done.
        by rewrite (bool_decide_eq_true_2 ((v < Z.of_nat n)%Z ∧ v ∈ s)) by done.
      * rewrite (bool_decide_eq_false_2 (v ∈ s)) by done.
        by rewrite (bool_decide_eq_false_2 ((v < Z.of_nat n)%Z ∧ v ∈ s))
          by (by intros [_ ?]).
    + rewrite (bool_decide_eq_false_2 (v < Z.of_nat n)%Z) by done.
      by rewrite (bool_decide_eq_false_2 ((v < Z.of_nat n)%Z ∧ v ∈ s))
        by (by intros [? _]).
Qed.

(** The inverted index maps a key below [num_vertices], negative keys
    included, to the positions of the RR sets containing it, in increasing
    order, and any other key to nothing. *)
Lemma build_index_get (rr : list (gset Z)) (n : nat) (v : Z) :
  dd_get (build_index rr n) v
  = if bool_decide (v < Z.of_nat n)%Z then positions v rr else [].
Proof.
  unfold build_index. rewrite (build_from_get n rr pair id) by done.
  unfold dd_get at 1. rewrite lookup_empty. simpl.
  case_bool_decide; [|done]. by rewrite list_fmap_id.
Qed.

Lemma positions_lookup (v : Z) (rr : list (gset Z)) (i : nat) :
  i ∈ positions v rr → ∃ s, rr !! i = Some s ∧ v ∈ s.
Proof.
  revert i. induction rr as [|s rr IH]; intros i; simpl.
  - by intros ?%elem_of_nil.
  - rewrite elem_of_app. intros [Hi|Hi].
    + case_bool_decide as Hv; [|by apply elem_of_nil in Hi].
      apply list_elem_of_singleton in Hi as ->. by exists s.
    + apply list_elem_of_fmap in Hi as (j & -> & Hj). by apply IH.
Qed.

(** *** Counting uncovered sets *)

Lemma positions_count (v : nat) (rr : list (gset Z)) :
  length (positions (Z.of_nat v) rr) = count_uncovered rr (replicate (length rr) false) v.
Proof.
  unfold count_uncovered, uncovered_containing.
  induction rr as [|s rr IH]; simpl; [done|].
  rewrite length_app, length_fmap, IH, filter_cons. simpl.
  destruct (decide (Z.of_nat v ∈ s)) as [Hv|Hv].
  - rewrite (bool_decide_eq_true_2 (Z.of_nat v ∈ s)) by done.
    by rewrite decide_True by done.
  - rewrite (bool_decide_eq_false_2 (Z.of_nat v ∈ s)) by done.
    by rewrite decide_False by (by intros [? _]).
Qed.

Lemma count_uncovered_cover (rr : list (gset Z)) (mask : list bool)
    (i : nat) (s : gset Z) (v : nat) :
  rr !! i = Some s → mask !! i = Some false →
  count_uncovered rr mask v
  = count_uncovered rr (<[i:=true]> mask) v
    + (if bool_decide (Z.of_nat v ∈ s) then 1 else 0).
Proof.
  unfold count_uncovered, uncovered_containing.
  revert mask i. induction rr as [|s0 rr IH]; intros [|b mask] i Hs Hm; try done.
  destruct i as [|i]; simpl in *.
  - injection Hs as ->. injection Hm as ->. rewrite !filter_cons. simpl.
    rewrite (decide_False (P := Z.of_nat v ∈ s ∧ true = false)) by (by intros [_ ?]).
    destruct (decide (Z.of_nat v ∈ s)) as [Hv|Hv].
    + rewrite (bool_decide_eq_true_2 (Z.of_nat v ∈ s)) by done.
      rewrite decide_True by done. simpl. lia.
    + rewrite (bool_decide_eq_false_2 (Z.of_nat v ∈ s)) by done.
      rewrite decide_False by (by intros [? _]). lia.
  - rewrite !filter_cons. simpl. specialize (IH mask i Hs Hm).
    destruct (decide (Z.of_nat v ∈ s0 ∧ b = false)); simpl; lia.
Qed.

(** *** Indexing the gain table with an id of either sign *)

Lemma np_index_lt (len : nat) (x : Z) (cell : nat) :
  np_index len x = Some cell → cell < len.
Proof. unfold np_index. repeat case_bool_decide; intros [= <-]; lia. Qed.

Lemma np_index_vertex (len : nat) (x : Z) :
  (0 ≤ x < Z.of_nat len)%Z → np_index len x = Some (Z.to_nat x).
Proof. intros Hx. unfold np_index. by rewrite bool_decide_eq_true_2. Qed.

Lemma np_index_is_Some (len : nat) (x : Z) :
  (- Z.of_nat len ≤ x < Z.of_nat len)%Z → is_Some (np_index len x).
Proof. intros Hx. unfold np_index. repeat case_bool_decide; eauto; lia. Qed.

(** *** The decrement pass *)

Lemma wrap32_small (z : Z) :
  (INT32_MIN ≤ z ≤ INT32_MAX)%Z → wrap32 z = z.
Proof.
  unfold wrap32, INT32_MIN, INT32_MAX. intros H.
  rewrite Z.mod_small by lia. lia.
Qed.

Lemma decrement_cell (gains gains' : list Z) (x : Z) :
  decrement gains x = Ok gains' →
  ∃ cell gx, np_index (length gains) x = Some cell
             ∧ gains !! cell = Some gx
             ∧ gains' = if bool_decide (gx ≠ (-1)%Z)
                        then <[cell := wrap32 (gx - 1)]> gains else gains.
Proof.
  unfold decrement, getitem. destruct (np_index _ x) as [cell|] eqn:Hcell; [|done].
  destruct (gains !! cell) as [gx|] eqn:Hgx; simpl; [|done].
  intros H. exists cell, gx. split_and!; [done..|]. case_bool_decide; congruence.
Qed.

Lemma decrement_spec (gains gains' : list Z) (x : Z) :
  (0 ≤ x < Z.of_nat (length gains))%Z →
  decrement gains x = Ok gains' →
  ∃ gx, gains !! Z.to_nat x = Some gx
        ∧ gains' = if bool_decide (gx ≠ (-1)%Z)
                   then <[Z.to_nat x := wrap32 (gx - 1)]> gains else gains.
Proof.
  intros Hx (cell & gx & Hcell & Hgx & ->)%decrement_cell.
  rewrite np_index_vertex in Hcell by done. injection Hcell as <-. by exists gx.
Qed.

Lemma decrement_length (gains gains' : list Z) (x : Z) :
  decrement gains x = Ok gains' → length gains' = length gains.
Proof.
  intros (cell & gx & _ & _ & ->)%decrement_cell. case_bool_decide; [|done].
  by rewrite length_insert.
Qed.

(** A cell that carries the sentinel keeps it, whatever id is decremented. *)
Lemma decrement_sentinel (gains gains' : list Z) (x : Z) (v : nat) :
  gains !! v = Some (-1)%Z → decrement gains x = Ok gains' →
  gains' !! v = Some (-1)%Z.
Proof.
  intros Hv (cell & gx & _ & Hgx & ->)%decrement_cell. case_bool_decide as Hne; [|done].
  rewrite list_lookup_insert_ne; [done|]. intros ->. congruence.
Qed.

Lemma decrement_raises (gains : list Z) (x : Z) (e : exn) :
  decrement gains x = Raise e →
  e = IndexError ∧ np_index (length gains) x = None.
Proof.
  unfold decrement, getitem. destruct (np_index _ x) as [cell|] eqn:Hcell.
  - destruct (lookup_lt_is_Some_2 gains cell) as [gx ->]; [by eapply np_index_lt|].
    simpl. by case_bool_decide.
  - by intros [= <-].
Qed.

Lemma decrement_loop (l : list Z) (gains gains' : list Z) :
  NoDup l → (∀ x, x ∈ l → (0 ≤ x < Z.of_nat (length gains))%Z) →
  for_each decrement gains l = Ok gains' →
  length gains' = length gains
  ∧ ∀ v g, gains !! v = Some g →
      gains' !! v
      = Some (if bool_decide (Z.of_nat v ∈ l ∧ g ≠ (-1)%Z) then wrap32 (g - 1) else g).
Proof.
  intros Hnd. revert gains. induction Hnd as [|x l Hx Hnd IH]; intros gains Hrange.
  - simpl. intros [= <-]. by split.
  - intros (g1 & Hdec & Hloop)%for_each_cons_ok.
    assert (Hxr : (0 ≤ x < Z.of_nat (length gains))%Z) by (apply Hrange; by left).
    pose proof (decrement_length _ _ _ Hdec) as Hlen1.
    apply decrement_spec in Hdec as (gx & Hgx & ->); [|done].
    apply IH in Hloop as [Hlen Hget];
      [|intros y Hy; rewrite Hlen1; apply Hrange; by right].
    split; [congruence|].
    assert (Hxlt : Z.to_nat x < length gains) by by eapply lookup_lt_Some.
    assert (Hxl : Z.of_nat (Z.to_nat x) ∉ l) by (by rewrite Z2Nat.id by lia).
    destruct (decide (gx ≠ (-1)%Z)) as [Hne|Heq].
    + rewrite (bool_decide_eq_true_2 (gx ≠ (-1)%Z)) in Hget by done.
      intros v g Hv. destruct (decide (v = Z.to_nat x)) as [->|Hvx].
      * assert (g = gx) as -> by congruence.
        rewrite (Hget _ (wrap32 (gx - 1))) by by rewrite list_lookup_insert_eq.
        rewrite bool_decide_eq_false_2 by (by intros [? _]).
        rewrite bool_decide_eq_true_2; [done|]. split; [|done].
        rewrite Z2Nat.id by lia. by left.
      * rewrite (Hget v g) by by rewrite list_lookup_insert_ne.
        rewrite (bool_decide_ext (Z.of_nat v ∈ x :: l ∧ g ≠ (-1)%Z)
                                 (Z.of_nat v ∈ l ∧ g ≠ (-1)%Z)); [done|].
        rewrite elem_of_cons. split; [|tauto]. intros [[Hvx'|?] ?]; [|done].
        exfalso. apply Hvx. lia.
    + rewrite (bool_decide_eq_false_2 (gx ≠ (-1)%Z)) in Hget by done.
      intros v g Hv. rewrite (Hget v g Hv).
      destruct (decide (v = Z.to_nat x)) as [->|Hvx].
      * assert (g = gx) as -> by congruence.
        rewrite !bool_decide_eq_false_2; [done|by intros [_ ?]|by intros [_ ?]].
      * rewrite (bool_decide_ext (Z.of_nat v ∈ x :: l ∧ g ≠ (-1)%Z)
                                 (Z.of_nat v ∈ l ∧ g ≠ (-1)%Z)); [done|].
        rewrite elem_of_cons. split; [|tauto]. intros [[Hvx'|?] ?]; [|done].
        exfalso. apply Hvx. lia.
Qed.

(** The decrement pass over any ids keeps the length of the table and the
    sentinels in it. *)
Lemma decrement_loop_shape (l : list Z) (gains gains' : list Z) :
  for_each decrement gains l = Ok gains' →
  length gains' = length gains
  ∧ ∀ v, gains !! v = Some (-1)%Z → gains' !! v = Some (-1)%Z.
Proof.
  apply (for_each_invariant
           (λ b, length b = length gains
                 ∧ ∀ v, gains !! v = Some (-1)%Z → b !! v = Some (-1)%Z)); [|done].
  intros b x b' _ [Hlen Hkeep] Hdec. split.
  - rewrite <- Hlen. by eapply decrement_length.
  - intros v Hv. eapply decrement_sentinel; [|done]. by apply Hkeep.
Qed.

Lemma cover_spec (rr : list (gset Z)) (gains gains' : list Z)
    (mask mask' : list bool) (i : nat) :
  cover rr (gains, mask) i = Ok (gains', mask') →
  (mask !! i = Some true ∧ gains' = gains ∧ mask' = mask)
  ∨ (∃ s, mask !! i = Some false ∧ rr !! i = Some s ∧ mask' = <[i:=true]> mask
          ∧ for_each decrement gains (elements s) = Ok gains').
Proof.
  unfold cover, getitem. destruct (mask !! i) as [[|]|] eqn:Hm; simpl; [| |done].
  - intros [= <- <-]. by left.
  - destruct (rr !! i) as [s|] eqn:Hs; simpl; [|done].
    destruct (for_each decrement gains (elements s)) as [g1|e] eqn:Hg; simpl; [|done].
    intros [= <- <-]. right. by exists s.
Qed.

Lemma cover_invariant (rr : list (gset Z)) (n : nat) (seeds : list nat)
    (acc acc' : list Z * list bool) (i : nat) :
  in_bounds rr n →
  gain_invariant rr n acc.1 acc.2 seeds → cover rr acc i = Ok acc' →
  gain_invariant rr n acc'.1 acc'.2 seeds.
Proof.
  destruct acc as [gains mask], acc' as [gains' mask']. simpl.
  intros Hin (Hlg & Hlm & Hinv)
         [(Hm & -> & ->)|(s & Hm & Hs & -> & Hloop)]%cover_spec; [done|].
  apply decrement_loop in Hloop as [Hlen Hget]; [|apply NoDup_elements|].
  2: { intros x Hx%elem_of_elements. rewrite Hlg. eapply Hin; [|done].
       by eapply list_elem_of_lookup_2. }
  split; [lia|]. split; [by rewrite length_insert|].
  intros v Hv. destruct (Hinv v Hv) as (g & Hg & Hmax & Hsel & Hcnt).
  rewrite (Hget v g Hg).
  pose proof (count_uncovered_cover rr mask i s v Hs Hm) as Hc.
  destruct (decide (v ∈ seeds)) as [Hsd|Hnsd].
  - exists g. rewrite (Hsel Hsd).
    rewrite bool_decide_eq_false_2 by (by intros [_ ?]).
    split_and!; [done|by unfold INT32_MAX|done|done].
  - specialize (Hcnt Hnsd). destruct (decide (Z.of_nat v ∈ s)) as [Hvs|Hvs].
    + rewrite (bool_decide_eq_true_2 (Z.of_nat v ∈ s)) in Hc by done.
      rewrite bool_decide_eq_true_2 by (rewrite elem_of_elements; split; [done|lia]).
      exists (g - 1)%Z.
      rewrite wrap32_small by (unfold INT32_MIN; unfold INT32_MAX in *; lia).
      split_and!; [done|lia|done|lia].
    + rewrite (bool_decide_eq_false_2 (Z.of_nat v ∈ s)) in Hc by done.
      rewrite bool_decide_eq_false_2 by (rewrite elem_of_elements; by intros [? _]).
      exists g. split_and!; [done|done|done|lia].
Qed.

(** Covering RR sets of any content keeps the lengths of both tables and
    the sentinels of the gain table. *)
Lemma cover_loop_shape (rr : list (gset Z)) (l : list nat)
    (acc acc' : list Z * list bool) :
  for_each (cover rr) acc l = Ok acc' →
  length acc'.1 = length acc.1 ∧ length acc'.2 = length acc.2
  ∧ ∀ v, acc.1 !! v = Some (-1)%Z → acc'.1 !! v = Some (-1)%Z.
Proof.
  apply (for_each_invariant
           (λ b, length b.1 = length acc.1 ∧ length b.2 = length acc.2
                 ∧ ∀ v, acc.1 !! v = Some (-1)%Z → b.1 !! v = Some (-1)%Z)); [|done].
  intros [g m] i [g' m'] _ (Hg & Hm & Hkeep) Hc. simpl in *.
  apply cover_spec in Hc as [(_ & -> & ->)|(s & _ & _ & -> & Hl)]; [done|].
  apply decrement_loop_shape in Hl as [Hl Hs].
  rewrite length_insert. split_and!; [congruence|done|]. intros v Hv. by apply Hs, Hkeep.
Qed.

(** *** One iteration of the selection loop *)

Lemma select_step_spec (rr : list (gset Z)) (idx : gmap Z (list nat))
    (st : state) (r : option state) :
  select_step rr idx st = Ok r →
  ∃ best g,
    argmax (marginal_gains st) = Ok best
    ∧ marginal_gains st !! best = Some g
    ∧ ((g = 0%Z ∧ r = None)
       ∨ (g ≠ 0%Z
          ∧ ∃ gains' mask',
              for_each (cover rr) (<[best := (-1)%Z]> (marginal_gains st), covered_rr_mask st)
                       (dd_get idx (Z.of_nat best)) = Ok (gains', mask')
              ∧ r = Some (State gains' mask' (seed_set st ++ [best])))).
Proof.
  unfold select_step, getitem.
  destruct (argmax (marginal_gains st)) as [best|e] eqn:Hbest; simpl; [|done].
  destruct (marginal_gains st !! best) as [g|] eqn:Hgain; simpl; [|done].
  case_bool_decide as Hg.
  - intros [= <-]. exists best, g. split_and!; [done|done|]. by left.
  - destruct (for_each _ _ _) as [[gains' mask']|e] eqn:Hloop; simpl; [|done].
    intros [= <-]. exists best, g. split_and!; [done|done|]. right.
    split; [done|]. by exists gains', mask'.
Qed.

Lemma select_step_invariant (rr : list (gset Z)) (n : nat)
    (idx : gmap Z (list nat)) (st st' : state) :
  in_bounds rr n →
  state_invariant rr n st → select_step rr idx st = Ok (Some st') →
  state_invariant rr n st'.
Proof.
  intros Hin (Hlg & Hlm & Hinv)
    (best & g & _ & Hbest & [[_ ?]|(_ & gains' & mask' & Hloop & Hst)])%select_step_spec;
    [done|].
  injection Hst as ->. unfold state_invariant. simpl.
  apply (for_each_invariant
           (λ acc, gain_invariant rr n acc.1 acc.2 (seed_set st ++ [best]))) in Hloop;
    [done| |].
  - intros b x b' _. by apply cover_invariant.
  - simpl. split; [by rewrite length_insert|]. split; [done|].
    intros v Hv. destruct (Hinv v Hv) as (gv & Hgv & Hmax & Hsel & Hcnt).
    destruct (decide (v = best)) as [->|Hne].
    + exists (-1)%Z. rewrite list_lookup_insert_eq by lia.
      split_and!; [done|by unfold INT32_MAX|done|].
      intros Hn. exfalso. apply Hn. apply elem_of_app. right. by left.
    + exists gv. rewrite list_lookup_insert_ne by done.
      split_and!; [done|done| |].
      * intros [Hsd|Hsd%list_elem_of_singleton]%elem_of_app; [auto|done].
      * intros Hn. apply Hcnt. intros Hsd. apply Hn, elem_of_app. by left.
Qed.

Lemma select_loop_invariant (rr : list (gset Z)) (n : nat)
    (idx : gmap Z (list nat)) (k : nat) (st st' : state) :
  in_bounds rr n →
  state_invariant rr n st → select_loop rr idx k st = Ok st' →
  state_invariant rr n st'.
Proof.
  intros Hin. revert st. induction k as [|k IH]; intros st Hinv; simpl.
  - by intros [= <-].
  - destruct (select_step rr idx st) as [[st1|]|e] eqn:Hstep; simpl; [| |done].
    + apply IH. by eapply select_step_invariant.
    + by intros [= <-].
Qed.

Lemma select_step_shape (rr : list (gset Z)) (n : nat)
    (idx : gmap Z (list nat)) (st st' : state) :
  table_shape rr n st → select_step rr idx st = Ok (Some st') →
  table_shape rr n st'.
Proof.
  intros (Hlg & Hlm & Hsent)
    (best & g & _ & Hbest & [[_ ?]|(_ & gains' & mask' & Hloop & Hst)])%select_step_spec;
    [done|].
  injection Hst as ->. unfold table_shape. simpl.
  apply cover_loop_shape in Hloop as (Hg & Hm & Hkeep). simpl in *.
  rewrite length_insert in Hg. split_and!; [lia|lia|].
  assert (Hlt : best < length (marginal_gains st)) by by eapply lookup_lt_Some.
  intros v [Hv|Hv%list_elem_of_singleton]%elem_of_app; apply Hkeep.
  - destruct (decide (v = best)) as [->|Hne].
    + by rewrite list_lookup_insert_eq.
    + rewrite list_lookup_insert_ne by done. by apply Hsent.
  - subst v. by rewrite list_lookup_insert_eq.
Qed.

Lemma select_loop_shape (rr : list (gset Z)) (n : nat)
    (idx : gmap Z (list nat)) (k : nat) (st st' : state) :
  table_shape rr n st → select_loop rr idx k st = Ok st' → table_shape rr n st'.
Proof.
  revert st. induction k as [|k IH]; intros st Hinv; simpl.
  - by intros [= <-].
  - destruct (select_step rr idx st) as [[st1|]|e] eqn:Hstep; simpl; [| |done].
    + apply IH. by eapply select_step_shape.
    + by intros [= <-].
Qed.

(** *** The initial gain table *)

Lemma initial_gains_from (idx : gmap Z (list nat)) (m a : nat) (acc r : list Z) :
  for_each (λ gains i,
              g ← int32_of_len (length (dd_get idx (Z.of_nat i))); Ok (<[i := g]> gains))
           acc (seq a m) = Ok r →
  a + m ≤ length acc →
  length r = length acc
  ∧ (∀ j, j < a → r !! j = acc !! j)
  ∧ (∀ j, a ≤ j < a + m →
       r !! j = Some (Z.of_nat (length (dd_get idx (Z.of_nat j))))
       ∧ (Z.of_nat (length (dd_get idx (Z.of_nat j))) ≤ INT32_MAX)%Z).
Proof.
  revert a acc. induction m as [|m IH]; intros a acc.
  - simpl. intros [= <-] _. split_and!; [done|done|lia].
  - intros (acc' & Hbody & Hloop)%for_each_cons_ok Hlen.
    unfold int32_of_len in Hbody. case_bool_decide as Hfit; simpl in Hbody; [|done].
    injection Hbody as <-. apply IH in Hloop as (Hlr & Hold & Hnew);
      [|rewrite length_insert; lia].
    rewrite length_insert in Hlr. split_and!; [done| |].
    + intros j Hj. rewrite Hold by lia. by rewrite list_lookup_insert_ne by lia.
    + intros j Hj. destruct (decide (j = a)) as [->|Hne].
      * rewrite Hold by lia. by rewrite list_lookup_insert_eq by lia.
      * apply Hnew. lia.
Qed.

Lemma initial_gains_spec (idx : gmap Z (list nat)) (n : nat) (gains : list Z) :
  initial_gains idx n = Ok gains →
  length gains = n
  ∧ ∀ v, v < n → gains !! v = Some (Z.of_nat (length (dd_get idx (Z.of_nat v))))
                 ∧ (Z.of_nat (length (dd_get idx (Z.of_nat v))) ≤ INT32_MAX)%Z.
Proof.
  intros (Hlen & _ & Hnew)%initial_gains_from; [|by rewrite length_replicate].
  rewrite length_replicate in Hlen. split; [done|].
  intros v Hv. apply Hnew. lia.
Qed.

Lemma initial_state_seeds (rr : list (gset Z)) (n : nat) (st0 : state) :
  initial_state rr n = Ok st0 →
  seed_set st0 = [] ∧ covered_rr_mask st0 = replicate (length rr) false.
Proof.
  unfold initial_state.
  destruct (initial_gains _ n) as [gains|e]; simpl; [|done]. by intros [= <-].
Qed.

(** The initial state satisfies the gain invariant, whatever the ids are:
    the index holds, for each vertex, the sets that name it by its own id. *)
Lemma initial_state_invariant (rr : list (gset Z)) (n : nat) (st0 : state) :
  initial_state rr n = Ok st0 → state_invariant rr n st0.
Proof.
  unfold initial_state.
  destruct (initial_gains _ n) as [gains|e] eqn:Hg; simpl; [|done].
  intros [= <-]. apply initial_gains_spec in Hg as [Hlen Hget].
  unfold state_invariant. simpl. split; [done|]. split; [by rewrite length_replicate|].
  intros v Hv. destruct (Hget v Hv) as [Hv1 Hv2].
  rewrite build_index_get, bool_decide_eq_true_2, positions_count in Hv1, Hv2 by lia.
  eexists. split_and!; [done|done|by intros ?%elem_of_nil|done].
Qed.

Lemma initial_state_shape (rr : list (gset Z)) (n : nat) (st0 : state) :
  initial_state rr n = Ok st0 → table_shape rr n st0.
Proof.
  intros Hinit. pose proof (initial_state_invariant _ _ _ Hinit) as (Hlg & Hlm & _).
  apply initial_state_seeds in Hinit as [Hseeds _].
  split_and!; [done..|]. rewrite Hseeds. by intros v ?%elem_of_nil.
Qed.

(** *** Budgets *)

Lemma select_step_extends (rr : list (gset Z)) (idx : gmap Z (list nat))
    (st st' : state) :
  select_step rr idx st = Ok (Some st') → seed_set st `prefix_of` seed_set st'.
Proof.
  intros (best & g & _ & _ & [[_ ?]|(_ & gains' & mask' & _ & Hst)])%select_step_spec;
    [done|].
  injection Hst as ->. simpl. by apply prefix_app_r.
Qed.

Lemma select_loop_succ (rr : list (gset Z)) (idx : gmap Z (list nat))
    (k : nat) (st st2 : state) :
  select_loop rr idx (S k) st = Ok st2 →
  ∃ st1, select_loop rr idx k st = Ok st1 ∧ seed_set st1 `prefix_of` seed_set st2.
Proof.
  revert st. induction k as [|k IH]; intros st.
  - simpl. destruct (select_step rr idx st) as [[st'|]|e] eqn:Hstep; simpl; [| |done].
    + intros [= <-]. exists st. split; [done|]. by eapply select_step_extends.
    + intros [= <-]. by exists st.
  - change (select_loop rr idx (S (S k)) st)
      with (r ← select_step rr idx st;
            match r with
            | None => Ok st
            | Some st' => select_loop rr idx (S k) st'
            end).
    change (select_loop rr idx (S k) st)
      with (r ← select_step rr idx st;
            match r with
            | None => Ok st
            | Some st' => select_loop rr idx k st'
            end).
    destruct (select_step rr idx st) as [[st'|]|e] eqn:Hstep; simpl; [| |done].
    + apply IH.
    + intros [= <-]. by exists st.
Qed.

(** *** Which exceptions can escape *)

Lemma decrement_loop_no_raise (gains : list Z) (l : list Z) (e : exn) :
  (∀ x, x ∈ l → (- Z.of_nat (length gains) ≤ x < Z.of_nat (length gains))%Z) →
  for_each decrement gains l ≠ Raise e.
Proof.
  intros Hl Hr.
  apply (for_each_raises (λ b, length b = length gains)) in Hr
    as (b & x & Hx & Hb & Hraise); [| |done].
  - apply decrement_raises in Hraise as [_ Hnone].
    destruct (np_index_is_Some (length b) x) as [cell Hcell]; [rewrite Hb; by apply Hl|].
    congruence.
  - intros b x b' _ Hb ->%decrement_length. done.
Qed.

Lemma cover_no_raise (rr : list (gset Z)) (n : nat) (gains : list Z)
    (mask : list bool) (i : nat) (e : exn) :
  in_bounds rr n → length gains = n → length mask = length rr → i < length rr →
  cover rr (gains, mask) i ≠ Raise e.
Proof.
  intros Hin Hlg Hlm Hi. unfold cover, getitem.
  destruct (lookup_lt_is_Some_2 mask i) as [b ->]; [lia|]. simpl.
  destruct b; [done|].
  destruct (lookup_lt_is_Some_2 rr i) as [s Hs]; [lia|]. rewrite Hs. simpl.
  destruct (for_each decrement gains (elements s)) as [g1|e1] eqn:Hloop; simpl; [done|].
  exfalso. apply (decrement_loop_no_raise gains (elements s) e1); [|done].
  intros x Hx%elem_of_elements. rewrite Hlg.
  cut (0 ≤ x < Z.of_nat n)%Z; [lia|]. eapply Hin; [|done].
  by eapply list_elem_of_lookup_2.
Qed.

Lemma select_step_raises (rr : list (gset Z)) (n : nat) (st : state) (e : exn) :
  in_bounds rr n → table_shape rr n st →
  select_step rr (build_index rr n) st = Raise e → e = ValueError ∧ n = 0.
Proof.
  intros Hin (Hlg & Hlm & _). unfold select_step.
  destruct (argmax (marginal_gains st)) as [best|e0] eqn:Hbest; simpl.
  - destruct (argmax_first_max _ _ Hbest) as (g & Hg & _).
    unfold getitem. rewrite Hg. simpl. case_bool_decide; [done|].
    destruct (for_each _ _ _) as [[gains' mask']|e1] eqn:Hloop; simpl; [done|].
    intros [= ->]. exfalso.
    apply (for_each_raises (λ acc, length acc.1 = n ∧ length acc.2 = length rr)) in Hloop
      as (b & i & Hi & Hb & Hraise).
    + destruct b as [gains mask]. destruct Hb as [Hg1 Hm1].
      apply (cover_no_raise rr n gains mask i e) in Hraise; [done..|].
      rewrite build_index_get in Hi. case_bool_decide; [|by apply elem_of_nil in Hi].
      apply positions_lookup in Hi as (s & Hs & _). by eapply lookup_lt_Some.
    + intros [gains mask] i [gains1 mask1] _ [Hg1 Hm1] Hc. simpl in *.
      apply cover_spec in Hc as [(_ & -> & ->)|(s & _ & _ & -> & Hl)]; [done|].
      apply decrement_loop_shape in Hl as [Hl _].
      rewrite length_insert. lia.
    + simpl. by rewrite length_insert.
  - intros [= ->]. apply argmax_raises in Hbest as [Hnil ->].
    split; [done|]. by rewrite <- Hlg, Hnil.
Qed.

Lemma select_loop_raises (rr : list (gset Z)) (n k : nat) (st : state) (e : exn) :
  in_bounds rr n → table_shape rr n st →
  select_loop rr (build_index rr n) k st = Raise e → e = ValueError ∧ n = 0.
Proof.
  intros Hin. revert st. induction k as [|k IH]; intros st Hinv; simpl; [done|].
  destruct (select_step rr (build_index rr n) st) as [[st1|]|e1] eqn:Hstep; simpl.
  - apply IH. by eapply select_step_shape.
  - done.
  - intros [= ->]. by eapply select_step_raises.
Qed.

Lemma initial_gains_raises (idx : gmap Z (list nat)) (l : list nat)
    (acc : list Z) (e : exn) :
  for_each (λ gains i,
              g ← int32_of_len (length (dd_get idx (Z.of_nat i))); Ok (<[i := g]> gains))
           acc l = Raise e → e = OverflowError.
Proof.
  intros (b & x & _ & _ & Hraise)%(for_each_raises (λ _, True)); [|done..].
  unfold int32_of_len in Hraise. case_bool_decide; simpl in Hraise; congruence.
Qed.

Lemma find_seed_set_raises (rr : list (gset Z)) (k : Z) (n : nat) (e : exn) :
  in_bounds rr n → find_seed_set rr k n = Raise e →
  (e = ValueError ∧ n = 0) ∨ e = OverflowError.
Proof.
  intros Hin. unfold find_seed_set. destruct (_ || _); [done|].
  destruct (initial_state rr n) as [st0|e0] eqn:Hinit; simpl.
  - apply initial_state_shape in Hinit.
    destruct (select_loop _ _ _ st0) as [st|e1] eqn:Hloop; simpl; [done|].
    intros [= ->]. left. by eapply select_loop_raises.
  - intros [= ->]. right. unfold initial_state in Hinit.
    destruct (initial_gains _ n) as [gains|e1] eqn:Hg; simpl in Hinit; [done|].
    injection Hinit as ->. by eapply initial_gains_raises.
Qed.

Lemma positions_length (v : Z) (rr : list (gset Z)) :
  length (positions v rr) ≤ length rr.
Proof.
  induction rr as [|s rr IH]; simpl; [done|].
  rewrite length_app, length_fmap. case_bool_decide; simpl; lia.
Qed.

(** The selector returns whenever the ids are vertices, the gain table is
    not empty and the collection is small enough for 32-bit counters. *)
Lemma find_seed_set_returns (rr : list (gset Z)) (k : Z) (n : nat) :
  in_bounds rr n → 0 < n → (Z.of_nat (length rr) ≤ INT32_MAX)%Z →
  ∃ seeds, find_seed_set rr k n = Ok seeds.
Proof.
  intros Hin Hn Hsmall.
  destruct (find_seed_set rr k n) as [seeds|e] eqn:Hrun; [by exists seeds|].
  destruct (find_seed_set_raises _ _ _ _ Hin Hrun) as [[_ ->]| ->]; [lia|].
  exfalso. revert Hrun. unfold find_seed_set. destruct (_ || _); [done|].
  unfold initial_state, initial_gains.
  destruct (for_each _ (replicate n 0%Z) (seq 0 n)) as [gains|e] eqn:Hg; simpl.
  - destruct (select_loop _ _ _ _) as [st|e] eqn:Hloop; simpl; [done|].
    intros [= ->].
    assert (Hinit : initial_state rr n = Ok (State gains (replicate (length rr) false) [])).
    { unfold initial_state, initial_gains. by rewrite Hg. }
    apply initial_state_shape in Hinit.
    by destruct (select_loop_raises _ _ _ _ _ Hin Hinit Hloop).
  - intros _.
    apply (for_each_raises (λ _, True)) in Hg as (b & x & _ & _ & Hraise); [|done..].
    unfold int32_of_len in Hraise. case_bool_decide as Hfit; [done|].
    apply Hfit. rewrite build_index_get. case_bool_decide; simpl; [|by unfold INT32_MAX].
    pose proof (positions_length (Z.of_nat x) rr). lia.
Qed.

End CoverageFacts.

Module SelectorProperties.
Import Coverage CoverageSpec CoverageExamples CoverageFacts.

Lemma sample_in_bounds : in_bounds sample_rr_sets 3.
Proof.
  intros s v Hs Hv. unfold sample_rr_sets in Hs.
  repeat (apply elem_of_cons in Hs as [->|Hs]); [set_unfold; lia..|].
  by apply elem_of_nil in Hs.
Qed.

(** C1 (evaluation at the failing input): with one vertex, one RR set and
    budget 2 the loop does not stop at the zero-gain test; the second pass
    finds the sentinel -1 as the maximum, which is not 0, and appends
    vertex 0 a second time. *)
Theorem find_seed_set_selects_twice :
  find_seed_set singleton_rr_sets 2 1 = Ok [0; 0]
  ∧ ¬ NoDup [0; 0]
  ∧ select_step singleton_rr_sets (build_index singleton_rr_sets 1)
      (State [-1]%Z [true] [0])
    = Ok (Some (State [-1]%Z [true] [0; 0])).
Proof.
  split_and!.
  - vm_compute. reflexivity.
  - intros Hnd. apply NoDup_cons in Hnd as [Hnd _]. apply Hnd. by left.
  - vm_compute. reflexivity.
Qed.

(** With an empty gain table [np.argmax] raises before the zero-gain test:
    a non-empty collection over zero vertices makes the selector fail. *)
Lemma find_seed_set_empty_table :
  find_seed_set [∅] 1 0 = Raise ValueError.
Proof. vm_compute. reflexivity. Qed.

(** C2 as stated fails: in the collection [{0, -1}, {1}] over two vertices
    every id is strictly less than [num_vertices], yet after the first
    iteration, which selects vertex 0 and covers the first set, the entry of
    the unselected vertex 1 is 0 although the uncovered set [{1}] contains
    it: the decrement for the id -1 went to the last cell of the table,
    which is the cell of vertex 1. *)
Theorem gain_table_miscounts_after_negative_id :
  below_num_vertices wrapping_rr_sets 2
  ∧ initial_state wrapping_rr_sets 2 = Ok wrapping_state0
  ∧ select_loop wrapping_rr_sets (build_index wrapping_rr_sets 2) 1 wrapping_state0
    = Ok wrapping_state1
  ∧ (1 ∉ seed_set wrapping_state1)
  ∧ marginal_gains wrapping_state1 !! 1 = Some 0%Z
  ∧ count_uncovered wrapping_rr_sets (covered_rr_mask wrapping_state1) 1 = 1.
Proof.
  split_and!.
  - intros s v Hs Hv. unfold wrapping_rr_sets in Hs.
    repeat (apply elem_of_cons in Hs as [->|Hs]); [set_unfold; lia..|].
    by apply elem_of_nil in Hs.
  - vm_compute. reflexivity.
  - vm_compute. reflexivity.
  - simpl. intros Hsd. apply elem_of_cons in Hsd as [Hsd|Hsd]; [done|].
    by apply elem_of_nil in Hsd.
  - reflexivity.
  - vm_compute. reflexivity.
Qed.

(** C2 (amended): when every id occurring in an RR set is at least 0 and
    strictly less than [num_vertices], then in every state reached by the
    selection loop from the initial state (that is, after every iteration),
    each vertex that has not been selected carries in [marginal_gains] the
    number of RR sets that contain it and whose [covered_rr_mask] entry is
    false. *)
Theorem gain_table_invariant (rr_sets : list (gset Z)) (num_vertices j : nat)
    (st0 st : state) :
  in_bounds rr_sets num_vertices →
  initial_state rr_sets num_vertices = Ok st0 →
  select_loop rr_sets (build_index rr_sets num_vertices) j st0 = Ok st →
  length (covered_rr_mask st) = length rr_sets
  ∧ ∀ v, v < num_vertices → v ∉ seed_set st →
      marginal_gains st !! v
      = Some (Z.of_nat (count_uncovered rr_sets (covered_rr_mask st) v)).
Proof.
  intros Hin Hinit%initial_state_invariant Hloop.
  destruct (select_loop_invariant _ _ _ _ _ _ Hin Hinit Hloop) as (_ & Hlm & Hinv).
  split; [done|]. intros v Hv Hsel.
  destruct (Hinv v Hv) as (g & Hg & _ & _ & Hcnt). by rewrite Hg, (Hcnt Hsel).
Qed.

Lemma gain_table_invariant_witness :
  length (covered_rr_mask sample_state1) = length sample_rr_sets
  ∧ ∀ v, v < 3 → v ∉ seed_set sample_state1 →
      marginal_gains sample_state1 !! v
      = Some (Z.of_nat (count_uncovered sample_rr_sets (covered_rr_mask sample_state1) v)).
Proof.
  apply (gain_table_invariant sample_rr_sets 3 1 sample_state0 sample_state1).
  - exact sample_in_bounds.
  - vm_compute. reflexivity.
  - vm_compute. reflexivity.
Defined.

(** C6: whenever an iteration selects a vertex, that vertex holds a maximal
    entry of the current gain table, and every vertex holding the same
    entry has an id at least as large. *)
Theorem selection_tie_break (rr_sets : list (gset Z))
    (node_to_rr_indices : gmap Z (list nat)) (st st' : state) :
  select_step rr_sets node_to_rr_indices st = Ok (Some st') →
  ∃ best g,
    seed_set st' = seed_set st ++ [best]
    ∧ marginal_gains st !! best = Some g
    ∧ (∀ u gu, marginal_gains st !! u = Some gu → (gu ≤ g)%Z)
    ∧ (∀ u, marginal_gains st !! u = Some g → best ≤ u).
Proof.
  intros (best & g & Hbest & Hg & [[_ ?]|(_ & gains' & mask' & _ & Hst)])%select_step_spec;
    [done|].
  injection Hst as ->. exists best, g.
  destruct (argmax_first_max _ _ Hbest) as (g0 & Hg0 & Hmax & Hfirst).
  assert (g0 = g) as -> by congruence.
  split_and!; [done|done|done|].
  intros u Hu. destruct (decide (best ≤ u)) as [|Hlt]; [done|].
  specialize (Hfirst u g Hu). lia.
Qed.

Lemma selection_tie_break_witness :
  ∃ best g,
    seed_set sample_state1 = seed_set sample_state0 ++ [best]
    ∧ marginal_gains sample_state0 !! best = Some g
    ∧ (∀ u gu, marginal_gains sample_state0 !! u = Some gu → (gu ≤ g)%Z)
    ∧ (∀ u, marginal_gains sample_state0 !! u = Some g → best ≤ u).
Proof.
  apply (selection_tie_break sample_rr_sets (build_index sample_rr_sets 3)).
  vm_compute. reflexivity.
Defined.

(** C7: for a budget [k ≥ 0], whenever the selector returns a seed set for
    budget [k + 1] it also returns one for budget [k], and the latter is a
    prefix of the former. *)
Theorem budget_prefix (rr_sets : list (gset Z)) (num_vertices : nat) (k : Z)
    (seeds' : list nat) :
  (0 ≤ k)%Z →
  find_seed_set rr_sets (k + 1) num_vertices = Ok seeds' →
  ∃ seeds, find_seed_set rr_sets k num_vertices = Ok seeds
           ∧ seeds `prefix_of` seeds'.
Proof.
  intros Hk. unfold find_seed_set.
  destruct (decide (rr_sets = [])) as [Hnil|Hnil].
  { rewrite !(bool_decide_eq_true_2 (rr_sets = [])) by done. simpl.
    intros [= <-]. by exists []. }
  rewrite !(bool_decide_eq_false_2 (rr_sets = [])) by done.
  rewrite (bool_decide_eq_false_2 (k + 1 = 0)%Z) by lia. simpl.
  destruct (decide (k = 0%Z)) as [->|Hk0].
  { intros _. exists []. split; [done|]. apply prefix_nil. }
  rewrite (bool_decide_eq_false_2 (k = 0)%Z) by done.
  replace (Z.to_nat (k + 1)) with (S (Z.to_nat k)) by lia.
  destruct (initial_state rr_sets num_vertices) as [st0|e]; [|done].
  change (Ok st0 ≫= ?f) with (f st0). cbv beta.
  destruct (select_loop _ _ (S _) st0) as [st2|e] eqn:Hloop; [|done].
  apply select_loop_succ in Hloop as (st1 & -> & Hpre).
  simpl. intros [= <-]. by exists (seed_set st1).
Qed.

Lemma budget_prefix_witness :
  ∃ seeds, find_seed_set sample_rr_sets 1 3 = Ok seeds ∧ seeds `prefix_of` [1; 2].
Proof.
  apply (budget_prefix sample_rr_sets 3 1 [1; 2]).
  - lia.
  - vm_compute. reflexivity.
Defined.

(** C9 as stated fails: in the collection [{0, -5}] over two vertices every
    id is strictly less than [num_vertices], so the build of the inverted
    index files the id -5 under its own key, yet the decrement pass indexes
    the two-cell gain table with -5, for which numpy has no cell, and
    [IndexError] escapes. *)
Theorem negative_id_raises_index_error :
  below_num_vertices far_negative_rr_sets 2
  ∧ dd_get (build_index far_negative_rr_sets 2) (-5) = [0]
  ∧ np_index 2 (-5) = None
  ∧ find_seed_set far_negative_rr_sets 1 2 = Raise IndexError.
Proof.
  split_and!.
  - intros s v Hs Hv. unfold far_negative_rr_sets in Hs.
    repeat (apply elem_of_cons in Hs as [->|Hs]); [set_unfold; lia..|].
    by apply elem_of_nil in Hs.
  - vm_compute. reflexivity.
  - reflexivity.
  - vm_compute. reflexivity.
Qed.

(** C9 (amended): when every id occurring in an RR set is at least 0 and
    strictly less than [num_vertices], no array access of the selector is
    out of bounds, so [IndexError] cannot escape; the upper bound cannot be
    dropped, since an RR set naming a vertex beyond the table makes the
    unguarded decrement pass raise [IndexError], although the build of the
    inverted index skipped that id. *)
Theorem in_bounds_precondition :
  (∀ rr_sets k num_vertices,
      in_bounds rr_sets num_vertices →
      find_seed_set rr_sets k num_vertices ≠ Raise IndexError)
  ∧ ¬ in_bounds stray_rr_sets 2
  ∧ dd_get (build_index stray_rr_sets 2) 5 = []
  ∧ find_seed_set stray_rr_sets 1 2 = Raise IndexError.
Proof.
  split_and!.
  - intros rr_sets k n Hin Hraise.
    by destruct (find_seed_set_raises _ _ _ _ Hin Hraise) as [[? _]|?].
  - intros Hin. specialize (Hin {[0; 5]}%Z 5%Z). cut (0 ≤ 5 < 2)%Z; [lia|].
    apply Hin; [by left|set_unfold; lia].
  - vm_compute. reflexivity.
  - vm_compute. reflexivity.
Qed.

Lemma in_bounds_precondition_witness :
  find_seed_set sample_rr_sets 5 3 ≠ Raise IndexError.
Proof.
  apply (proj1 in_bounds_precondition sample_rr_sets 5%Z 3).
  exact sample_in_bounds.
Defined.

End SelectorProperties.

(** * Properties of the sampler *)

Module RisFacts.
Import Ris RisSpec.

(** *** numpy *)

Lemma Qlt_bool_spec (x y : Q) : Qlt_bool x y = true ↔ (x < y)%Q.
Proof. unfold Qlt_bool, Qlt. apply Z.ltb_lt. Qed.

Lemma elem_of_flatnonzero (b : list bool) (i : nat) :
  i ∈ flatnonzero b ↔ b !! i = Some true.
Proof.
  unfold flatnonzero. rewrite list_elem_of_filter, elem_of_seq.
  split; [by intros [? _]|]. intros Hi. split; [done|].
  apply lookup_lt_Some in Hi. lia.
Qed.

Lemma elem_of_reached (dist : list Z) (v : nat) :
  v ∈ reached dist ↔ ∃ d, dist !! v = Some d ∧ (d < INT32_MAX)%Z.
Proof.
  unfold reached. rewrite elem_of_list_to_set, elem_of_flatnonzero, list_lookup_fmap.
  destruct (dist !! v) as [d|]; simpl.
  - split.
    + intros [= Hd%bool_decide_eq_true_1]. by exists d.
    + intros (d' & [= <-] & Hd). by rewrite bool_decide_eq_true_2.
  - split; [done|]. by intros (d & ? & _).
Qed.

Lemma reached_lt (dist : list Z) (v : nat) : v ∈ reached dist → v < length dist.
Proof. intros (d & Hd & _)%elem_of_reached. by eapply lookup_lt_Some. Qed.

(** *** One round of the search *)

Lemma relax_length (d : Z) (dist0 acc : list Z) (e : nat * nat) :
  length (relax d dist0 acc e) = length acc.
Proof.
  unfold relax. destruct (dist0 !! e.1), (acc !! e.2); try done.
  destruct (_ && _); [by rewrite length_insert|done].
Qed.

Lemma relax_bounded (d : Z) (dist0 acc : list Z) (e : nat * nat) :
  (d + 1 ≤ INT32_MAX)%Z →
  Forall (λ x, (x ≤ INT32_MAX)%Z) acc →
  Forall (λ x, (x ≤ INT32_MAX)%Z) (relax d dist0 acc e).
Proof.
  intros Hd Hacc. unfold relax. destruct (dist0 !! e.1), (acc !! e.2); try done.
  destruct (_ && _); [|done]. apply Forall_insert; done.
Qed.

Lemma relax_mono (d : Z) (dist0 acc : list Z) (e : nat * nat) (v : nat) :
  v ∈ reached acc → v ∈ reached (relax d dist0 acc e).
Proof.
  rewrite !elem_of_reached. intros (x & Hx & Hlt). exists x. split; [|done].
  unfold relax. destruct (dist0 !! e.1) as [ds|]; [|done].
  destruct (acc !! e.2) as [dt|] eqn:Ht; [|done].
  destruct (bool_decide (ds < INT32_MAX)%Z); simpl; [|done].
  case_bool_decide as Hmax; [|done].
  rewrite list_lookup_insert_ne; [done|]. intros <-. simplify_eq. lia.
Qed.

Lemma relax_reached (d : Z) (dist0 acc : list Z) (e : nat * nat) (v : nat) :
  (d + 1 < INT32_MAX)%Z →
  Forall (λ x, (x ≤ INT32_MAX)%Z) acc →
  v ∈ reached (relax d dist0 acc e)
  ↔ v ∈ reached acc ∨ (v = e.2 ∧ e.1 ∈ reached dist0 ∧ v < length acc).
Proof.
  intros Hd Hacc. split.
  - rewrite (elem_of_reached (relax _ _ _ _)). intros (x & Hx & Hlt). revert Hx.
    unfold relax. destruct (dist0 !! e.1) as [ds|] eqn:Hs.
    2: { intros Hx. left. apply elem_of_reached. eauto. }
    destruct (acc !! e.2) as [dt|] eqn:Ht.
    2: { intros Hx. left. apply elem_of_reached. eauto. }
    case_bool_decide as Hds; simpl.
    2: { intros Hx. left. apply elem_of_reached. eauto. }
    case_bool_decide as Hdt.
    2: { intros Hx. left. apply elem_of_reached. eauto. }
    destruct (decide (v = e.2)) as [->|Hne].
    + intros _. right. split; [done|]. split.
      * apply elem_of_reached. eauto.
      * by eapply lookup_lt_Some.
    + rewrite list_lookup_insert_ne by done. intros Hx. left.
      apply elem_of_reached. eauto.
  - intros [Hv|(-> & (ds & Hs & Hds)%elem_of_reached & Hlt)]; [by apply relax_mono|].
    destruct (lookup_lt_is_Some_2 acc e.2 Hlt) as [dt Ht].
    apply elem_of_reached. unfold relax. rewrite Hs, Ht.
    rewrite (bool_decide_eq_true_2 (ds < INT32_MAX)%Z) by done. simpl.
    case_bool_decide as Hdt.
    + exists (d + 1)%Z. by rewrite list_lookup_insert_eq.
    + exists dt. split; [done|].
      rewrite Forall_lookup in Hacc. specialize (Hacc _ _ Ht). simpl in Hacc. lia.
Qed.

Section Rounds.
Variable es : list (nat * nat).

Lemma bfs_fold_length (d : Z) (dist0 acc : list Z) (l : list (nat * nat)) :
  length (foldl (relax d dist0) acc l) = length acc.
Proof.
  revert acc. induction l as [|e l IH]; intros acc; simpl; [done|].
  by rewrite IH, relax_length.
Qed.

Lemma bfs_fold_bounded (d : Z) (dist0 acc : list Z) (l : list (nat * nat)) :
  (d + 1 ≤ INT32_MAX)%Z →
  Forall (λ x, (x ≤ INT32_MAX)%Z) acc →
  Forall (λ x, (x ≤ INT32_MAX)%Z) (foldl (relax d dist0) acc l).
Proof.
  intros Hd. revert acc. induction l as [|e l IH]; intros acc Hacc; simpl; [done|].
  by apply IH, relax_bounded.
Qed.

Lemma bfs_fold_mono (d : Z) (dist0 acc : list Z) (l : list (nat * nat)) (v : nat) :
  v ∈ reached acc → v ∈ reached (foldl (relax d dist0) acc l).
Proof.
  revert acc. induction l as [|e l IH]; intros acc Hv; simpl; [done|].
  by apply IH, relax_mono.
Qed.

Lemma bfs_fold_reached (d : Z) (dist0 acc : list Z) (l : list (nat * nat)) (v : nat) :
  (d + 1 < INT32_MAX)%Z →
  Forall (λ x, (x ≤ INT32_MAX)%Z) acc →
  v ∈ reached (foldl (relax d dist0) acc l)
  ↔ v ∈ reached acc ∨ ∃ s, (s, v) ∈ l ∧ s ∈ reached dist0 ∧ v < length acc.
Proof.
  intros Hd. revert acc. induction l as [|e l IH]; intros acc Hacc; simpl.
  - split; [by left|]. intros [?|(s & ?%elem_of_nil & _)]; done.
  - rewrite IH by (apply relax_bounded; [lia|done]).
    rewrite relax_reached, relax_length by done. split.
    + intros [[Hv|(-> & He & Hlt)]|(s & Hs & Hr & Hlt)].
      * by left.
      * right. exists e.1. split; [|done]. destruct e. by left.
      * right. exists s. split; [by right|done].
    + intros [Hv|(s & [<-|Hs]%elem_of_cons & Hr & Hlt)].
      * left. by left.
      * left. right. done.
      * right. by exists s.
Qed.

Lemma bfs_round_reached (d : Z) (dist : list Z) (v : nat) :
  (d + 1 < INT32_MAX)%Z →
  Forall (λ x, (x ≤ INT32_MAX)%Z) dist →
  v ∈ reached (bfs_round es d dist)
  ↔ v ∈ reached dist ∨ ∃ s, (s, v) ∈ es ∧ s ∈ reached dist ∧ v < length dist.
Proof. apply bfs_fold_reached. Qed.

Lemma bfs_levels_length (j : nat) (dist0 : list Z) :
  length (bfs_levels j es dist0) = length dist0.
Proof.
  induction j as [|j IH]; simpl; [done|]. unfold bfs_round.
  by rewrite bfs_fold_length.
Qed.

Lemma bfs_levels_bounded (j : nat) (dist0 : list Z) :
  (Z.of_nat j ≤ INT32_MAX)%Z →
  Forall (λ x, (x ≤ INT32_MAX)%Z) dist0 →
  Forall (λ x, (x ≤ INT32_MAX)%Z) (bfs_levels j es dist0).
Proof.
  intros Hj H0. induction j as [|j IH]; simpl; [done|].
  apply bfs_fold_bounded; [lia|]. apply IH. lia.
Qed.

Lemma bfs_levels_mono (j : nat) (dist0 : list Z) (v : nat) :
  v ∈ reached dist0 → v ∈ reached (bfs_levels j es dist0).
Proof.
  intros Hv. induction j as [|j IH]; simpl; [done|]. by apply bfs_fold_mono.
Qed.

Lemma bfs_levels_step (j : nat) (dist0 : list Z) (v : nat) :
  (Z.of_nat j + 1 < INT32_MAX)%Z →
  Forall (λ x, (x ≤ INT32_MAX)%Z) dist0 →
  v ∈ reached (bfs_levels (S j) es dist0)
  ↔ v ∈ reached (bfs_levels j es dist0)
    ∨ ∃ s, (s, v) ∈ es ∧ s ∈ reached (bfs_levels j es dist0) ∧ v < length dist0.
Proof.
  intros Hj H0. simpl. rewrite bfs_round_reached, bfs_levels_length; [done|done|].
  apply bfs_levels_bounded; [lia|done].
Qed.

End Rounds.

(** *** The search reaches exactly the vertices connected to the source *)

Section Search.
Variable es : list (nat * nat).
Variable n src : nat.
Hypothesis src_lt : src < n.
Hypothesis n_small : (Z.of_nat n < INT32_MAX)%Z.
Hypothesis targets_lt : ∀ s t, (s, t) ∈ es → t < n.

Let dist0 : list Z := <[src := 0%Z]> (replicate n INT32_MAX).
Let R (j : nat) : gset nat := reached (bfs_levels j es dist0).
Let E (s t : nat) : Prop := (s, t) ∈ es.

Local Lemma dist0_length : length dist0 = n.
Proof. unfold dist0. by rewrite length_insert, length_replicate. Qed.

Local Lemma dist0_bounded : Forall (λ x, (x ≤ INT32_MAX)%Z) dist0.
Proof.
  unfold dist0. apply Forall_insert; [|by unfold INT32_MAX].
  apply Forall_replicate. lia.
Qed.

Local Lemma R_zero (v : nat) : v ∈ R 0 ↔ v = src.
Proof.
  unfold R, dist0. simpl. rewrite elem_of_reached. split.
  - intros (d & Hd & Hlt). destruct (decide (v = src)) as [|Hne]; [done|].
    rewrite list_lookup_insert_ne in Hd by done.
    apply lookup_replicate in Hd as [-> _]. lia.
  - intros ->. exists 0%Z. split; [|by unfold INT32_MAX].
    apply list_lookup_insert_eq. by rewrite length_replicate.
Qed.

Local Lemma R_step (j : nat) (v : nat) :
  j < n → v ∈ R (S j) ↔ v ∈ R j ∨ ∃ s, E s v ∧ s ∈ R j.
Proof.
  intros Hj. unfold R. rewrite bfs_levels_step, dist0_length;
    [|lia|apply dist0_bounded].
  split; intros [?|(s & Hs & Hr)]; [by left| |by left|].
  - right. exists s. by destruct Hr.
  - right. exists s. split_and!; [done..|]. by eapply targets_lt.
Qed.

Local Lemma R_subseteq (j : nat) : R j ⊆ R (S j).
Proof. intros v Hv. unfold R. simpl. by apply bfs_fold_mono. Qed.

Local Lemma R_range (j : nat) : R j ⊆ set_seq 0 n.
Proof.
  intros v Hv%reached_lt. rewrite bfs_levels_length, dist0_length in Hv.
  apply elem_of_set_seq. lia.
Qed.

Local Lemma R_sound (j : nat) (v : nat) : j ≤ n → v ∈ R j → rtc E src v.
Proof.
  revert v. induction j as [|j IH]; intros v Hj.
  - intros ->%R_zero. done.
  - intros Hv. apply R_step in Hv as [Hv|(s & Hs & Hr)]; [| |lia].
    + apply IH; [lia|done].
    + eapply rtc_r; [|done]. apply IH; [lia|done].
Qed.

Local Lemma R_stable (i m : nat) :
  S i ≤ n → R (S i) = R i → i ≤ m → m ≤ n → R m = R i.
Proof.
  intros Hi Heq Him. induction Him as [|m Him IH]; [done|].
  intros Hm. specialize (IH ltac:(lia)). transitivity (R (S i)); [|done].
  apply set_eq. intros v. rewrite !R_step by lia. by rewrite IH.
Qed.

Local Lemma R_grows (j : nat) :
  j ≤ n → (∃ i, i < j ∧ R (S i) = R i) ∨ j + 1 ≤ size (R j).
Proof.
  induction j as [|j IH]; intros Hj.
  - right. assert (R 0 = {[src]}) as ->.
    { apply set_eq. intros v. rewrite R_zero. set_solver. }
    by rewrite size_singleton.
  - destruct IH as [(i & Hi & Heq)|Hsize]; [lia| |].
    + left. exists i. split; [lia|done].
    + destruct (decide (R (S j) = R j)) as [Heq|Hne].
      * left. exists j. split; [lia|done].
      * right. assert (R j ⊂ R (S j)) as Hsub%subset_size; [|lia].
        split; [apply R_subseteq|]. intros Hback. apply Hne.
        apply set_eq. intros v. split; [apply Hback|apply R_subseteq].
Qed.

Local Lemma R_closed (s t : nat) : E s t → s ∈ R n → t ∈ R n.
Proof.
  intros Hst Hs. destruct (R_grows n) as [(i & Hi & Heq)|Hsize]; [lia| |].
  - rewrite (R_stable i n) in Hs |- * by (done || lia).
    rewrite <- Heq. apply R_step; [lia|]. right. by exists s.
  - pose proof (subseteq_size _ _ (R_range n)) as Hle.
    rewrite size_set_seq in Hle. lia.
Qed.

Lemma search_reaches (v : nat) :
  v ∈ reached (bfs_levels n es dist0) ↔ rtc E src v.
Proof.
  split; [by apply R_sound|].
  revert v. apply rtc_ind_r.
  - apply bfs_levels_mono. by apply (R_zero src).
  - intros y z _ Hyz Hy. by eapply R_closed.
Qed.

End Search.

(** *** Filtering and reversing *)

Lemma efilt_all_false (g : Graph) (act : list bool) :
  Forall (λ b, b = false) act → view_edges (graph_view_efilt g act) = [].
Proof.
  intros Hact. simpl. generalize (edges g). induction Hact as [|b act -> _ IH];
    intros [|e l]; simpl; try done.
  rewrite filter_cons_False by (simpl; done). apply IH.
Qed.

Lemma efilt_all_true (g : Graph) (act : list bool) :
  Forall (λ b, b = true) act → length act = num_edges g →
  view_edges (graph_view_efilt g act) = edges g.
Proof.
  unfold num_edges. simpl. generalize (edges g). intros l Hact. revert l.
  induction Hact as [|b act -> _ IH]; intros [|e l] Hlen; simpl in *; try done.
  f_equal. apply IH. lia.
Qed.

Lemma np_greater_length (x y : list Q) :
  length (np_greater x y) = length x `min` length y.
Proof. unfold np_greater. apply length_zip_with. Qed.

Lemma np_greater_lookup (x y : list Q) (i : nat) (xi yi : Q) :
  x !! i = Some xi → y !! i = Some yi →
  np_greater x y !! i = Some (Qlt_bool yi xi).
Proof.
  intros Hx Hy. unfold np_greater. rewrite lookup_zip_with, Hx. simpl. by rewrite Hy.
Qed.

Lemma np_greater_zero (x y : list Q) :
  (∀ xi, xi ∈ x → (xi == 0)%Q) → Forall unit_draw y →
  Forall (λ b, b = false) (np_greater x y).
Proof.
  intros Hx Hy. apply Forall_lookup. intros i b Hb.
  unfold np_greater in Hb. apply lookup_zip_with_Some in Hb as (xi & yi & -> & Hxi & Hyi).
  apply not_true_is_false. intros Hlt%Qlt_bool_spec.
  rewrite (Hx xi) in Hlt by by eapply list_elem_of_lookup_2.
  rewrite Forall_lookup in Hy. destruct (Hy _ _ Hyi) as [Hge _].
  by apply Qlt_not_le in Hlt.
Qed.

Lemma np_greater_one (x y : list Q) :
  (∀ xi, xi ∈ x → (xi == 1)%Q) → Forall unit_draw y →
  Forall (λ b, b = true) (np_greater x y).
Proof.
  intros Hx Hy. apply Forall_lookup. intros i b Hb.
  unfold np_greater in Hb. apply lookup_zip_with_Some in Hb as (xi & yi & -> & Hxi & Hyi).
  apply Qlt_bool_spec. rewrite (Hx xi) by by eapply list_elem_of_lookup_2.
  rewrite Forall_lookup in Hy. by destruct (Hy _ _ Hyi) as [_ Hlt].
Qed.

Lemma rtc_reversed (g : Graph) (root v : nat) :
  rtc (λ s t, (s, t) ∈ (λ e : nat * nat, (e.2, e.1)) <$> edges g) root v
  ↔ ancestor g root v.
Proof.
  unfold ancestor, edge_rel.
  assert (Hflip : ∀ s t, (s, t) ∈ (λ e : nat * nat, (e.2, e.1)) <$> edges g
                         ↔ (t, s) ∈ edges g).
  { intros s t. rewrite list_elem_of_fmap. split.
    - intros ([t' s'] & [= -> ->] & He). done.
    - intros He. by exists (t, s). }
  split.
  - revert v. apply rtc_ind_r; [done|].
    intros y z _ Hyz%Hflip IH. by eapply rtc_l.
  - revert v. apply rtc_ind_l; [done|].
    intros x y Hxy%Hflip _ IH. by eapply rtc_r.
Qed.

(** *** The RR set of a root and a live-edge sample *)

Lemma rr_set_of_reached (g : Graph) (p_map : PropertyMap) (root : nat) (us : list Q) :
  rr_set_of g p_map root us
  = reached (shortest_distance
               (graph_view_reversed (graph_view_efilt g (np_greater (a p_map) us))) root).
Proof. done. Qed.

Lemma rr_set_of_root (g : Graph) (p_map : PropertyMap) (root : nat) (us : list Q) :
  root < num_vertices g → root ∈ rr_set_of g p_map root us.
Proof.
  intros Hroot. rewrite rr_set_of_reached. unfold shortest_distance.
  apply bfs_levels_mono, elem_of_reached. exists 0%Z. split; [|by unfold INT32_MAX].
  apply list_lookup_insert_eq. by rewrite length_replicate.
Qed.

Lemma rr_set_of_range (g : Graph) (p_map : PropertyMap) (root : nat) (us : list Q)
    (v : nat) :
  v ∈ rr_set_of g p_map root us → v < num_vertices g.
Proof.
  rewrite rr_set_of_reached. intros Hv%reached_lt. unfold shortest_distance in Hv.
  by rewrite bfs_levels_length, length_insert, length_replicate in Hv.
Qed.

Lemma rr_set_of_zero (g : Graph) (p_map : PropertyMap) (root : nat) (us : list Q) :
  root < num_vertices g →
  (∀ pi, pi ∈ a p_map → (pi == 0)%Q) → Forall unit_draw us →
  rr_set_of g p_map root us = {[root]}.
Proof.
  intros Hroot Hp Hus. rewrite rr_set_of_reached. unfold shortest_distance.
  cbn [graph_view_reversed view_edges view_num_vertices].
  rewrite efilt_all_false by by apply np_greater_zero.
  cbn [fmap list_fmap graph_view_efilt view_num_vertices].
  assert (Hid : ∀ j d, bfs_levels j [] d = d).
  { intros j d. induction j as [|j IH]; simpl; [done|]. by rewrite IH. }
  rewrite Hid. apply set_eq. intros v.
  rewrite elem_of_reached, elem_of_singleton. split.
  - intros (d & Hd & Hlt). destruct (decide (v = root)) as [|Hne]; [done|].
    rewrite list_lookup_insert_ne in Hd by done.
    apply lookup_replicate in Hd as [-> _]. lia.
  - intros ->. exists 0%Z. split; [|by unfold INT32_MAX].
    apply list_lookup_insert_eq. by rewrite length_replicate.
Qed.

Lemma rr_set_of_one (g : Graph) (p_map : PropertyMap) (root : nat) (us : list Q)
    (v : nat) :
  wf_graph g → wf_property_map g p_map → root < num_vertices g →
  (∀ pi, pi ∈ a p_map → (pi == 1)%Q) →
  length us = num_edges g → Forall unit_draw us →
  v ∈ rr_set_of g p_map root us ↔ ancestor g root v.
Proof.
  intros [Hedges Hsmall] Hlen Hroot Hp Hlus Hus.
  rewrite rr_set_of_reached. unfold shortest_distance.
  cbn [graph_view_reversed view_edges view_num_vertices].
  rewrite efilt_all_true.
  - cbn [graph_view_efilt view_num_vertices].
    rewrite search_reaches; [apply rtc_reversed|done|done|].
    intros s t ([t' s'] & [= -> ->] & He)%list_elem_of_fmap.
    by destruct (Hedges _ _ He).
  - by apply np_greater_one.
  - rewrite np_greater_length. unfold wf_property_map in Hlen. lia.
Qed.

End RisFacts.

Module SamplerFacts.
Import Ris RisSpec RisExamples RisFacts.

Section RandomSource.
Context {RNG : Type}.
Variable randint : nat → nat → RNG → nat * RNG.
Variable rand : nat → RNG → list Q * RNG.

Lemma generate_rr_set_unfold (g : Graph) (p_map : PropertyMap) (rng : RNG) :
  num_vertices g ≠ 0 →
  generate_rr_set randint rand g p_map rng
  = (rr_set_of g p_map (randint 0 (num_vertices g) rng).1
               (rand (num_edges g) (randint 0 (num_vertices g) rng).2).1,
     (rand (num_edges g) (randint 0 (num_vertices g) rng).2).2).
Proof.
  intros Hn. unfold generate_rr_set. rewrite bool_decide_eq_false_2 by done.
  destruct (randint 0 (num_vertices g) rng) as [root rng1]. simpl.
  by destruct (rand (num_edges g) rng1) as [us rng2].
Qed.

Lemma generate_rr_set_range (g : Graph) (p_map : PropertyMap) (rng : RNG) (v : nat) :
  v ∈ (generate_rr_set randint rand g p_map rng).1 → v < num_vertices g.
Proof.
  destruct (decide (num_vertices g = 0)) as [Hn|Hn].
  - unfold generate_rr_set. rewrite bool_decide_eq_true_2 by done. simpl.
    by intros ?%not_elem_of_empty.
  - rewrite generate_rr_set_unfold by done. simpl. apply rr_set_of_range.
Qed.

Lemma sample_times_spec (g : Graph) (p_map : PropertyMap) (m : nat) (rng : RNG) :
  (sample_times randint rand m g p_map rng).2 = rng_after randint rand g p_map m rng
  ∧ length (sample_times randint rand m g p_map rng).1 = m
  ∧ ∀ i, i < m →
      (sample_times randint rand m g p_map rng).1 !! i
      = Some (generate_rr_set randint rand g p_map
                (rng_after randint rand g p_map i rng)).1.
Proof.
  revert rng. induction m as [|m IH]; intros rng.
  - simpl. split_and!; [done|done|lia].
  - simpl. destruct (generate_rr_set randint rand g p_map rng) as [rr rng1] eqn:Hg.
    destruct (IH rng1) as (Hrng & Hlen & Hget).
    destruct (sample_times randint rand m g p_map rng1) as [rest rng2]. simpl in *.
    split_and!; [done|lia|]. intros [|i] Hi; simpl.
    + by rewrite Hg.
    + rewrite Hg. simpl. apply Hget. lia.
Qed.

Lemma sample_times_in_bounds (g : Graph) (p_map : PropertyMap) (m : nat) (rng : RNG) :
  CoverageSpec.in_bounds
    (CoverageSpec.int_set <$> (sample_times randint rand m g p_map rng).1)
    (num_vertices g).
Proof.
  intros rr z (s & -> & (i & Hi)%list_elem_of_lookup_1)%list_elem_of_fmap Hz.
  apply elem_of_map in Hz as (v & -> & Hv).
  destruct (sample_times_spec g p_map m rng) as (_ & Hlen & Hget).
  assert (i < m) as Him by (rewrite <- Hlen; by eapply lookup_lt_Some).
  rewrite (Hget i Him) in Hi. injection Hi as <-.
  apply generate_rr_set_range in Hv. lia.
Qed.

End RandomSource.

(** The counting generator honours both contracts. *)
Lemma counter_randint_contract : randint_contract counter_randint.
Proof.
  intros low high s Hlt. unfold counter_randint. simpl.
  pose proof (Nat.mod_upper_bound s (high - low)). lia.
Qed.

Lemma counter_rand_contract : rand_contract counter_rand.
Proof.
  intros m s. unfold counter_rand. simpl. split; [by rewrite length_fmap, length_seq|].
  apply Forall_fmap, Forall_forall. intros i _. simpl.
  pose proof (Nat.mod_upper_bound (s + i) 4 ltac:(lia)) as Hlt.
  unfold unit_draw, Qle, Qlt. simpl. lia.
Qed.

Lemma chain_graph_wf : wf_graph chain_graph.
Proof.
  split; [|by unfold INT32_MAX]. intros s t He. unfold chain_graph in He. simpl in He.
  repeat (apply elem_of_cons in He as [[= -> ->]|He]); [simpl; lia..|].
  by apply elem_of_nil in He.
Qed.

End SamplerFacts.

Module SamplerProperties.
Import Ris RisSpec RisExamples RisFacts SamplerFacts.




(** C4: on a graph with at least one vertex, whatever the generator
    returns within its contract, the RR set contains the root that was
    drawn; on the zero-vertex graph the result is the empty set and the
    generator is not consulted. *)
Theorem root_is_member {RNG : Type} (randint : nat → nat → RNG → nat * RNG)
    (rand : nat → RNG → list Q * RNG) (g : Graph) (p_map : PropertyMap) (rng : RNG) :
  randint_contract randint →
  (0 < num_vertices g →
     (randint 0 (num_vertices g) rng).1 ∈ (generate_rr_set randint rand g p_map rng).1)
  ∧ (num_vertices g = 0 → generate_rr_set randint rand g p_map rng = (∅, rng)).
Proof.
  intros Hint. split; intros Hn.
  - rewrite generate_rr_set_unfold by lia. simpl.
    apply rr_set_of_root. apply Hint. lia.
  - unfold generate_rr_set. by rewrite bool_decide_eq_true_2.
Qed.

Example empty_graph_rr_set :
  generate_rr_set counter_randint counter_rand empty_graph (constant_map "double" 1 0) 7
  = (∅, 7).
Proof. reflexivity. Qed.

Lemma root_is_member_witness :
  (0 < 4 →
     (counter_randint 0 4 2).1
     ∈ (generate_rr_set counter_randint counter_rand chain_graph
          (constant_map "double" 1 3) 2).1)
  ∧ (4 = 0 →
     generate_rr_set counter_randint counter_rand chain_graph
       (constant_map "double" 1 3) 2 = (∅, 2)).
Proof.
  apply (root_is_member counter_randint counter_rand chain_graph
           (constant_map "double" 1 3) 2).
  exact counter_randint_contract.
Defined.

(** C5: the flag of an edge is set exactly when its uniform draw is
    strictly below its probability; when every probability is 0 the RR set
    is the root alone, and when every probability is 1 it is the set of
    all ancestors of the root in the full graph. *)
Theorem live_edge_rule {RNG : Type} (randint : nat → nat → RNG → nat * RNG)
    (rand : nat → RNG → list Q * RNG) (g : Graph) (p_map : PropertyMap) (rng : RNG) :
  randint_contract randint → rand_contract rand →
  wf_graph g → wf_property_map g p_map → 0 < num_vertices g →
  let root := (randint 0 (num_vertices g) rng).1 in
  let random_values := (rand (num_edges g) (randint 0 (num_vertices g) rng).2).1 in
  (∀ i p u, a p_map !! i = Some p → random_values !! i = Some u →
     unit_draw u
     ∧ ∃ live, np_greater (a p_map) random_values !! i = Some live
               ∧ (live = true ↔ (u < p)%Q))
  ∧ ((∀ p, p ∈ a p_map → (p == 0)%Q) →
     (generate_rr_set randint rand g p_map rng).1 = {[root]})
  ∧ ((∀ p, p ∈ a p_map → (p == 1)%Q) →
     ∀ v, v ∈ (generate_rr_set randint rand g p_map rng).1 ↔ ancestor g root v).
Proof.
  intros Hint Hrand Hwf Hpm Hn root random_values.
  destruct (Hrand (num_edges g) (randint 0 (num_vertices g) rng).2) as [Hlen Hunit].
  assert (Hroot : root < num_vertices g) by (apply Hint; lia).
  split_and!.
  - intros i p u Hp Hu. split.
    + rewrite Forall_lookup in Hunit. by apply (Hunit i).
    + exists (Qlt_bool u p). split; [by apply np_greater_lookup|].
      apply Qlt_bool_spec.
  - intros Hzero. rewrite generate_rr_set_unfold by lia. simpl.
    by apply rr_set_of_zero.
  - intros Hone v. rewrite generate_rr_set_unfold by lia. simpl.
    by apply rr_set_of_one.
Qed.

Lemma live_edge_rule_witness :
  let root := (counter_randint 0 4 2).1 in
  let random_values := (counter_rand 3 (counter_randint 0 4 2).2).1 in
  let p_map := constant_map "double" 1 3 in
  (∀ i p u, a p_map !! i = Some p → random_values !! i = Some u →
     unit_draw u
     ∧ ∃ live, np_greater (a p_map) random_values !! i = Some live
               ∧ (live = true ↔ (u < p)%Q))
  ∧ ((∀ p, p ∈ a p_map → (p == 0)%Q) →
     (generate_rr_set counter_randint counter_rand chain_graph p_map 2).1 = {[root]})
  ∧ ((∀ p, p ∈ a p_map → (p == 1)%Q) →
     ∀ v, v ∈ (generate_rr_set counter_randint counter_rand chain_graph p_map 2).1
          ↔ ancestor chain_graph root v).
Proof.
  apply (live_edge_rule counter_randint counter_rand chain_graph
           (constant_map "double" 1 3) 2).
  - exact counter_randint_contract.
  - exact counter_rand_contract.
  - exact chain_graph_wf.
  - reflexivity.
  - simpl. lia.
Defined.

(** C8: on a graph that passes validation, [num_samples ≤ 0] gives the
    empty collection without error and without touching the generator;
    [num_samples > 0] gives exactly [num_samples] RR sets, the [i]-th being
    what the sampler returns from the generator state left by the [i]
    calls before it. *)
Theorem collection_in_call_order {RNG : Type} (randint : nat → nat → RNG → nat * RNG)
    (rand : nat → RNG → list Q * RNG) (g : Graph) (num_samples : Z) (rng : RNG) :
  passes_validation g →
  ∃ p_map,
    edge_properties g !! "p"%string = Some p_map
    ∧ ((num_samples ≤ 0)%Z →
       generate_rr_sets_collection randint rand g num_samples rng = (Ok [], rng))
    ∧ ((0 < num_samples)%Z →
       ∃ rr_sets,
         generate_rr_sets_collection randint rand g num_samples rng
         = (Ok rr_sets, rng_after randint rand g p_map (Z.to_nat num_samples) rng)
         ∧ Z.of_nat (length rr_sets) = num_samples
         ∧ ∀ i, i < length rr_sets →
             rr_sets !! i
             = Some (generate_rr_set randint rand g p_map
                       (rng_after randint rand g p_map i rng)).1).
Proof.
  intros (p_map & Hp & Hkind). exists p_map. split; [done|].
  unfold generate_rr_sets_collection. split; intros Hn.
  - by rewrite bool_decide_eq_true_2 by lia.
  - rewrite bool_decide_eq_false_2 by lia. rewrite Hp.
    assert (negb (contains "float" (value_type p_map))
            && negb (contains "double" (value_type p_map)) = false) as ->.
    { destruct Hkind as [-> | ->]; [done|]. apply andb_false_r. }
    destruct (sample_times_spec randint rand g p_map (Z.to_nat num_samples) rng)
      as (Hrng & Hlen & Hget).
    destruct (sample_times randint rand (Z.to_nat num_samples) g p_map rng)
      as [rr_sets rng'].
    simpl in *. exists rr_sets. subst rng'. split_and!; [done|lia|].
    intros i Hi. apply Hget. lia.
Qed.

Lemma collection_in_call_order_witness :
  ∃ p_map,
    edge_properties silent_graph !! "p"%string = Some p_map
    ∧ ((3 ≤ 0)%Z →
       generate_rr_sets_collection counter_randint counter_rand silent_graph 3 1
       = (Ok [], 1))
    ∧ ((0 < 3)%Z →
       ∃ rr_sets,
         generate_rr_sets_collection counter_randint counter_rand silent_graph 3 1
         = (Ok rr_sets,
            rng_after counter_randint counter_rand silent_graph p_map (Z.to_nat 3) 1)
         ∧ Z.of_nat (length rr_sets) = 3%Z
         ∧ ∀ i, i < length rr_sets →
             rr_sets !! i
             = Some (generate_rr_set counter_randint counter_rand silent_graph p_map
                       (rng_after counter_randint counter_rand silent_graph p_map i 1)).1).
Proof.
  apply (collection_in_call_order counter_randint counter_rand silent_graph 3 1).
  eexists. split; [by vm_compute|]. right. by vm_compute.
Defined.

(** C10: every element of an RR set returned by the sampler is a vertex
    id below the vertex count of the graph (and, being an array index, not
    negative), hence every collection the builder returns, handed to the
    selector, satisfies its in-bounds precondition for that vertex count. *)
Theorem rr_sets_in_range {RNG : Type} (randint : nat → nat → RNG → nat * RNG)
    (rand : nat → RNG → list Q * RNG) (g : Graph) :
  (∀ p_map rng v,
      v ∈ (generate_rr_set randint rand g p_map rng).1 → v < num_vertices g)
  ∧ (∀ num_samples rng rr_sets,
        (generate_rr_sets_collection randint rand g num_samples rng).1 = Ok rr_sets →
        CoverageSpec.in_bounds (CoverageSpec.int_set <$> rr_sets) (num_vertices g)).
Proof.
  split.
  - intros p_map rng v. apply generate_rr_set_range.
  - intros num_samples rng rr_sets. unfold generate_rr_sets_collection.
    case_bool_decide.
    { simpl. intros [= <-]. intros rr v Hrr. by apply elem_of_nil in Hrr. }
    destruct (edge_properties g !! "p"%string) as [p_map|]; [|done].
    destruct (_ && _); [done|].
    pose proof (sample_times_in_bounds randint rand g p_map (Z.to_nat num_samples) rng)
      as Hin.
    destruct (sample_times randint rand (Z.to_nat num_samples) g p_map rng)
      as [l rng'].
    simpl in *. by intros [= <-].
Qed.

Lemma rr_sets_in_range_witness :
  CoverageSpec.in_bounds (CoverageSpec.int_set <$> [{[1]}; {[3]}; {[1]}])
    (num_vertices silent_graph).
Proof.
  apply (proj2 (rr_sets_in_range counter_randint counter_rand silent_graph) 3%Z 1).
  vm_compute. reflexivity.
Defined.

End SamplerProperties.

(** * Further properties of the greedy selector *)

Module SelectionFacts.
Import Coverage CoverageSpec CoverageExamples CoverageFacts SelectionSpec.

Lemma reachable_invariant (rr : list (gset Z)) (n : nat) (st : state) :
  in_bounds rr n → reachable rr n st → state_invariant rr n st.
Proof.
  intros Hin (st0 & j & Hinit%initial_state_invariant & Hloop).
  by eapply select_loop_invariant.
Qed.

Lemma reachable_shape (rr : list (gset Z)) (n : nat) (st : state) :
  reachable rr n st → table_shape rr n st.
Proof.
  intros (st0 & j & Hinit%initial_state_shape & Hloop).
  by eapply select_loop_shape.
Qed.

Lemma reachable_step (rr : list (gset Z)) (n : nat) (st st' : state) :
  reachable rr n st → select_step rr (build_index rr n) st = Ok (Some st') →
  reachable rr n st'.
Proof.
  intros (st0 & j & Hinit & Hloop) Hstep. exists st0, (S j). split; [done|].
  clear Hinit. revert st0 Hloop. induction j as [|j IH]; intros st0 Hloop.
  - simpl in Hloop. injection Hloop as ->. simpl. by rewrite Hstep.
  - revert Hloop.
    change (select_loop rr (build_index rr n) (S (S j)) st0)
      with (r ← select_step rr (build_index rr n) st0;
            match r with
            | None => Ok st0
            | Some st1 => select_loop rr (build_index rr n) (S j) st1
            end).
    change (select_loop rr (build_index rr n) (S j) st0)
      with (r ← select_step rr (build_index rr n) st0;
            match r with
            | None => Ok st0
            | Some st1 => select_loop rr (build_index rr n) j st1
            end).
    destruct (select_step rr (build_index rr n) st0) as [[st1|]|e] eqn:Hs0; simpl;
      [apply IH| |done].
    intros [= <-]. by rewrite Hstep in Hs0.
Qed.

(** *** Positions *)

Lemma elem_of_positions (v : Z) (rr : list (gset Z)) (i : nat) :
  i ∈ positions v rr ↔ ∃ s, rr !! i = Some s ∧ v ∈ s.
Proof.
  split; [apply positions_lookup|]. revert i.
  induction rr as [|s0 rr IH]; intros i (s & Hs & Hv); [done|].
  simpl. apply elem_of_app. destruct i as [|i]; simpl in Hs.
  - injection Hs as ->. left. rewrite bool_decide_eq_true_2 by done. by left.
  - right. apply list_elem_of_fmap. exists i. split; [done|]. apply IH. by exists s.
Qed.

Lemma positions_sorted (v : Z) (rr : list (gset Z)) :
  StronglySorted lt (positions v rr).
Proof.
  induction rr as [|s rr IH]; simpl; [constructor|].
  assert (Htail : StronglySorted lt (S <$> positions v rr)).
  { clear -IH. induction IH as [|x l Hl IH Hx]; simpl; constructor; [done|].
    apply Forall_fmap. eapply Forall_impl; [done|]. simpl. lia. }
  case_bool_decide; simpl; [|done]. constructor; [done|].
  apply Forall_fmap, Forall_forall. intros x _. simpl. lia.
Qed.

(** *** Lengths and seeds along the loop *)

Lemma cover_loop_lengths (rr : list (gset Z)) (l : list nat)
    (acc acc' : list Z * list bool) :
  for_each (cover rr) acc l = Ok acc' →
  length acc'.1 = length acc.1 ∧ length acc'.2 = length acc.2.
Proof.
  intros (Hg & Hm & _)%cover_loop_shape. by split.
Qed.

Lemma select_step_seed (rr : list (gset Z)) (idx : gmap Z (list nat))
    (st st' : state) :
  select_step rr idx st = Ok (Some st') →
  ∃ best, seed_set st' = seed_set st ++ [best]
          ∧ best < length (marginal_gains st)
          ∧ length (marginal_gains st') = length (marginal_gains st).
Proof.
  intros (best & g & _ & Hg & [[_ ?]|(_ & gains' & mask' & Hloop & Hst)])%select_step_spec;
    [done|].
  injection Hst as ->. exists best. simpl. split; [done|].
  split; [by eapply lookup_lt_Some|].
  apply cover_loop_lengths in Hloop as [Hl _]. simpl in Hl.
  by rewrite length_insert in Hl.
Qed.

Lemma select_loop_seeds (rr : list (gset Z)) (idx : gmap Z (list nat))
    (k : nat) (st st' : state) :
  select_loop rr idx k st = Ok st' →
  ∃ new, seed_set st' = seed_set st ++ new
         ∧ length new ≤ k
         ∧ Forall (λ v, v < length (marginal_gains st)) new
         ∧ length (marginal_gains st') = length (marginal_gains st).
Proof.
  revert st. induction k as [|k IH]; intros st; simpl.
  - intros [= <-]. exists []. by rewrite app_nil_r.
  - destruct (select_step rr idx st) as [[st1|]|e] eqn:Hstep; simpl; [| |done].
    + intros (new & Hnew & Hlen & Hall & Hg)%IH.
      apply select_step_seed in Hstep as (best & Hbest & Hlt & Hg1).
      exists (best :: new). rewrite Hnew, Hbest, <- app_assoc. simpl.
      split_and!; [done|lia| |congruence].
      constructor; [done|]. by rewrite Hg1 in Hall.
    + intros [= <-]. exists []. rewrite app_nil_r. split_and!; [done|simpl; lia|done|done].
Qed.

(** *** What the covered mask records *)

Lemma cover_loop_mask (rr : list (gset Z)) (l : list nat)
    (acc acc' : list Z * list bool) (i : nat) :
  for_each (cover rr) acc l = Ok acc' →
  acc'.2 !! i = Some true ↔ acc.2 !! i = Some true ∨ i ∈ l.
Proof.
  revert acc. induction l as [|x l IH]; intros [g m].
  - simpl. intros [= <-]. split; [by left|]. by intros [?|?%elem_of_nil].
  - intros ([g1 m1] & Hc & Hloop)%for_each_cons_ok. rewrite (IH _ Hloop). simpl.
    rewrite elem_of_cons.
    apply cover_spec in Hc as [(Hm & -> & ->)|(s & Hm & _ & -> & _)].
    + split; [tauto|]. intros [?|[->|?]]; tauto.
    + destruct (decide (i = x)) as [->|Hne].
      * rewrite list_lookup_insert_eq by by eapply lookup_lt_Some. tauto.
      * rewrite list_lookup_insert_ne by done. split; [tauto|].
        intros [?|[?|?]]; [tauto|done|tauto].
Qed.

Lemma select_step_mask (rr : list (gset Z)) (n : nat) (st st' : state) :
  table_shape rr n st →
  (∀ i, covered_rr_mask st !! i = Some true ↔ covered_by rr (seed_set st) i) →
  select_step rr (build_index rr n) st = Ok (Some st') →
  ∀ i, covered_rr_mask st' !! i = Some true ↔ covered_by rr (seed_set st') i.
Proof.
  intros (Hlg & _) Hmask Hstep i.
  apply select_step_spec in Hstep
    as (best & g & _ & Hg & [[_ ?]|(_ & gains' & mask' & Hloop & Hst)]); [done|].
  injection Hst as ->. simpl.
  rewrite (cover_loop_mask _ _ _ _ i Hloop). simpl.
  rewrite Hmask, build_index_get.
  rewrite bool_decide_eq_true_2
    by (apply lookup_lt_Some in Hg; rewrite Hlg in Hg; lia).
  rewrite elem_of_positions. unfold covered_by. split.
  - intros [(v & s & Hv & Hs & Hvs)|(s & Hs & Hvs)].
    + exists v, s. split; [|done]. apply elem_of_app. by left.
    + exists best, s. split; [|done]. apply elem_of_app. right. by left.
  - intros (v & s & [Hv|Hv%list_elem_of_singleton]%elem_of_app & Hs & Hvs).
    + left. by exists v, s.
    + subst v. right. by exists s.
Qed.

Lemma select_loop_mask (rr : list (gset Z)) (n k : nat) (st st' : state) :
  table_shape rr n st →
  (∀ i, covered_rr_mask st !! i = Some true ↔ covered_by rr (seed_set st) i) →
  select_loop rr (build_index rr n) k st = Ok st' →
  ∀ i, covered_rr_mask st' !! i = Some true ↔ covered_by rr (seed_set st') i.
Proof.
  revert st. induction k as [|k IH]; intros st Hinv Hmask; simpl.
  - by intros [= <-].
  - destruct (select_step rr (build_index rr n) st) as [[st1|]|e] eqn:Hstep; simpl;
      [| |done].
    + apply IH; [by eapply select_step_shape|by eapply select_step_mask].
    + by intros [= <-].
Qed.

Lemma reachable_mask (rr : list (gset Z)) (n : nat) (st : state) (i : nat) :
  reachable rr n st →
  covered_rr_mask st !! i = Some true ↔ covered_by rr (seed_set st) i.
Proof.
  intros (st0 & j & Hinit & Hloop). revert i.
  eapply select_loop_mask; [by apply initial_state_shape| |done].
  intros i. unfold initial_state in Hinit.
  destruct (initial_gains _ n) as [gains|e]; simpl in Hinit; [|done].
  injection Hinit as <-. simpl. split.
  - intros [[=] _]%lookup_replicate.
  - intros (v & s & Hv%elem_of_nil & _). done.
Qed.

Lemma count_uncovered_zero (rr : list (gset Z)) (mask : list bool)
    (v i : nat) (s : gset Z) :
  count_uncovered rr mask v = 0 → rr !! i = Some s → Z.of_nat v ∈ s →
  mask !! i ≠ Some false.
Proof.
  unfold count_uncovered, uncovered_containing. intros Hnil%nil_length_inv Hs Hv Hm.
  apply (filter_nil_not_elem_of _ _ (s, false)) in Hnil; [|done].
  apply Hnil. apply list_elem_of_lookup. exists i.
  rewrite lookup_zip_with, Hs. simpl. by rewrite Hm.
Qed.

(** *** The choice made by one pass *)

Lemma select_step_choice (rr : list (gset Z)) (n : nat) (st st' : state) :
  state_invariant rr n st → select_step rr (build_index rr n) st = Ok (Some st') →
  ∃ best,
    seed_set st' = seed_set st ++ [best] ∧ best < n
    ∧ (((best ∉ seed_set st)
        ∧ (0 < count_uncovered rr (covered_rr_mask st) best)
        ∧ ∀ u, u < n → u ∉ seed_set st →
            count_uncovered rr (covered_rr_mask st) u
            ≤ count_uncovered rr (covered_rr_mask st) best
            ∧ (count_uncovered rr (covered_rr_mask st) u
               = count_uncovered rr (covered_rr_mask st) best → best ≤ u))
       ∨ (best ∈ seed_set st ∧ ∀ u, u < n → u ∈ seed_set st)).
Proof.
  intros (Hlg & _ & Hinv) Hstep.
  apply select_step_spec in Hstep
    as (best & g & Hbest & Hg & [[_ ?]|(Hg0 & gains' & mask' & _ & Hst)]); [done|].
  injection Hst as ->. simpl. exists best. split; [done|].
  assert (Hlt : best < n) by (rewrite <- Hlg; by eapply lookup_lt_Some).
  split; [done|].
  destruct (argmax_first_max _ _ Hbest) as (g' & Hg' & Hmax & Hfirst).
  assert (g' = g) as -> by congruence.
  destruct (Hinv best Hlt) as (gb & Hgb & _ & Hsel & Hcnt).
  assert (gb = g) as -> by congruence.
  destruct (decide (best ∈ seed_set st)) as [Hin|Hnin].
  - right. split; [done|]. intros u Hu.
    destruct (decide (u ∈ seed_set st)) as [|Hun]; [done|].
    destruct (Hinv u Hu) as (gu & Hgu & _ & _ & Hcu).
    specialize (Hmax _ _ Hgu). rewrite (Hsel Hin) in Hmax. rewrite (Hcu Hun) in Hmax. lia.
  - left. specialize (Hcnt Hnin). split; [done|]. split; [lia|].
    intros u Hu Hun. destruct (Hinv u Hu) as (gu & Hgu & _ & _ & Hcu).
    specialize (Hcu Hun). split.
    + specialize (Hmax _ _ Hgu). lia.
    + intros Heq. destruct (decide (best ≤ u)) as [|Hgt]; [done|].
      specialize (Hfirst _ _ Hgu). lia.
Qed.

(** *** No repetition within the first [num_vertices] picks *)

Lemma select_loop_NoDup (rr : list (gset Z)) (n k : nat) (st st' : state) :
  in_bounds rr n →
  state_invariant rr n st → NoDup (seed_set st) →
  length (seed_set st) + k ≤ n →
  select_loop rr (build_index rr n) k st = Ok st' → NoDup (seed_set st').
Proof.
  intros Hin. revert st. induction k as [|k IH]; intros st Hinv Hnd Hlen; simpl.
  - by intros [= <-].
  - destruct (select_step rr (build_index rr n) st) as [[st1|]|e] eqn:Hstep; simpl;
      [| |done].
    + destruct (select_step_choice _ _ _ _ Hinv Hstep)
        as (best & Hseeds & _ & [(Hnin & _)|(_ & Hall)]).
      * apply IH; [by eapply select_step_invariant| |].
        -- rewrite Hseeds. apply NoDup_app. split_and!; [done| |apply NoDup_singleton].
           intros x Hx ->%list_elem_of_singleton. done.
        -- rewrite Hseeds, length_app. simpl. lia.
      * exfalso.
        assert (seq 0 n ⊆+ seed_set st) as Hsub%submseteq_length.
        { apply NoDup_submseteq; [apply NoDup_seq|].
          intros x Hx%elem_of_seq. apply Hall. lia. }
        rewrite length_seq in Hsub. lia.
    + by intros [= <-].
Qed.

Lemma select_loop_short (rr : list (gset Z)) (idx : gmap Z (list nat))
    (k : nat) (st st' : state) :
  select_loop rr idx k st = Ok st' →
  length (seed_set st') < length (seed_set st) + k →
  select_step rr idx st' = Ok None.
Proof.
  revert st. induction k as [|k IH]; intros st; simpl.
  - intros [= <-]. lia.
  - destruct (select_step rr idx st) as [[st1|]|e] eqn:Hstep; simpl; [| |done].
    + intros Hloop Hlen. apply (IH st1 Hloop).
      apply select_step_seed in Hstep as (best & -> & _).
      rewrite length_app. simpl. lia.
    + by intros [= <-].
Qed.

Lemma find_seed_set_run (rr : list (gset Z)) (k : Z) (n : nat) (seeds : list nat) :
  find_seed_set rr k n = Ok seeds →
  (seeds = [] ∧ (rr = [] ∨ k = 0%Z))
  ∨ (rr ≠ [] ∧ k ≠ 0%Z
     ∧ ∃ st0 st, initial_state rr n = Ok st0
                 ∧ select_loop rr (build_index rr n) (Z.to_nat k) st0 = Ok st
                 ∧ seeds = seed_set st).
Proof.
  unfold find_seed_set.
  destruct (decide (rr = [])) as [Hrr|Hrr].
  { rewrite (bool_decide_eq_true_2 (rr = [])) by done. simpl. intros [= <-]. left. auto. }
  destruct (decide (k = 0%Z)) as [Hk|Hk].
  { rewrite (bool_decide_eq_true_2 (k = 0%Z)) by done. rewrite orb_true_r.
    intros [= <-]. left. auto. }
  rewrite (bool_decide_eq_false_2 (rr = [])), (bool_decide_eq_false_2 (k = 0%Z)) by done.
  simpl. destruct (initial_state rr n) as [st0|e]; simpl; [|done].
  destruct (select_loop _ _ _ st0) as [st|e] eqn:Hloop; simpl; [|done].
  intros [= <-]. right. split_and!; [done..|]. by exists st0, st.
Qed.

Lemma find_seed_set_seeds (rr : list (gset Z)) (k : Z) (n : nat) (seeds : list nat) :
  find_seed_set rr k n = Ok seeds →
  (Z.of_nat (length seeds) ≤ Z.max k 0)%Z ∧ Forall (λ v, v < n) seeds.
Proof.
  intros [[-> _]|(_ & _ & st0 & st & Hinit & Hloop & ->)]%find_seed_set_run.
  { split; [simpl; lia|done]. }
  apply select_loop_seeds in Hloop as (new & Hnew & Hlen & Hall & _).
  apply initial_state_invariant in Hinit as Hinv. destruct Hinv as (Hlg & _).
  unfold initial_state in Hinit.
  destruct (initial_gains _ _) as [gains|e]; simpl in Hinit; [|done].
  injection Hinit as <-. simpl in *. subst new.
  split; [lia|]. by rewrite Hlg in Hall.
Qed.

Lemma short_run_covers (rr_sets : list (gset Z)) (k : Z) (num_vertices : nat)
    (seeds : list nat) :
  in_bounds rr_sets num_vertices →
  find_seed_set rr_sets k num_vertices = Ok seeds →
  (Z.of_nat (length seeds) < k)%Z →
  ∀ i s v, rr_sets !! i = Some s → v ∈ s → ∃ u, u ∈ seeds ∧ Z.of_nat u ∈ s.
Proof.
  intros Hin [[-> [-> | ->]]|(_ & _ & st0 & st & Hinit & Hloop & ->)]%find_seed_set_run Hlen.
  { by intros i s v Hs. }
  { simpl in Hlen. lia. }
  intros i s v Hs Hv.
  assert (Hreach : reachable rr_sets num_vertices st) by by exists st0, (Z.to_nat k).
  pose proof (reachable_invariant _ _ _ Hin Hreach) as (Hlg & Hlm & Hinv).
  apply initial_state_seeds in Hinit as [Hseeds0 _].
  apply select_loop_short in Hloop; [|rewrite Hseeds0; simpl; lia].
  apply select_step_spec in Hloop
    as (best & g & Hbest & Hg & [[-> _]|(_ & ? & ? & _ & [=])]).
  destruct (argmax_first_max _ _ Hbest) as (g' & Hg' & Hmax & _).
  assert (g' = 0%Z) as -> by congruence.
  assert (Hvn : (0 ≤ v < Z.of_nat num_vertices)%Z)
    by (eapply Hin; [by eapply list_elem_of_lookup_2|done]).
  assert (Hvs : Z.of_nat (Z.to_nat v) ∈ s) by (by rewrite Z2Nat.id by lia).
  destruct (decide (Z.to_nat v ∈ seed_set st)) as [|Hnsd]; [by exists (Z.to_nat v)|].
  destruct (Hinv (Z.to_nat v) ltac:(lia)) as (gv & Hgv & _ & _ & Hcnt).
  specialize (Hcnt Hnsd). specialize (Hmax _ _ Hgv).
  assert (Hzero : count_uncovered rr_sets (covered_rr_mask st) (Z.to_nat v) = 0) by lia.
  destruct (lookup_lt_is_Some_2 (covered_rr_mask st) i) as [b Hb].
  { rewrite Hlm. by eapply lookup_lt_Some. }
  destruct b; [|by destruct (count_uncovered_zero _ _ _ _ _ Hzero Hs Hvs)].
  apply (reachable_mask _ _ _ i Hreach) in Hb as (u & s' & Hu & Hs' & Hus).
  assert (s' = s) as -> by congruence. by exists u.
Qed.

End SelectionFacts.

Module SelectionProperties.
Import Coverage CoverageSpec CoverageExamples CoverageFacts SelectionSpec SelectionFacts.

Lemma sample_initial_state : initial_state sample_rr_sets 3 = Ok sample_state0.
Proof. vm_compute. reflexivity. Qed.

Lemma sample_reachable : reachable sample_rr_sets 3 sample_state0.
Proof. exists sample_state0, 0. split; [exact sample_initial_state|reflexivity]. Qed.

Lemma sample_reachable_after_one_pass : reachable sample_rr_sets 3 sample_state1.
Proof.
  exists sample_state0, 1. split; [exact sample_initial_state|]. vm_compute. reflexivity.
Qed.

(** X1: the inverted index lists, for a key below [num_vertices] (a vertex,
    or a negative id), the positions of exactly the RR sets that contain
    it, in increasing order; a key that is not below [num_vertices] reads
    as the empty list. *)
Theorem inverted_index_content (rr_sets : list (gset Z)) (num_vertices : nat) (v : Z) :
  ((v < Z.of_nat num_vertices)%Z →
     StronglySorted lt (dd_get (build_index rr_sets num_vertices) v)
     ∧ ∀ i, i ∈ dd_get (build_index rr_sets num_vertices) v
            ↔ ∃ s, rr_sets !! i = Some s ∧ v ∈ s)
  ∧ ((Z.of_nat num_vertices ≤ v)%Z → dd_get (build_index rr_sets num_vertices) v = []).
Proof.
  rewrite build_index_get. split; intros Hv.
  - rewrite bool_decide_eq_true_2 by done.
    split; [apply positions_sorted|apply elem_of_positions].
  - by rewrite bool_decide_eq_false_2 by lia.
Qed.

Lemma inverted_index_content_witness :
  StronglySorted lt (dd_get (build_index sample_rr_sets 3) 1)
  ∧ ∀ i, i ∈ dd_get (build_index sample_rr_sets 3) 1
         ↔ ∃ s, sample_rr_sets !! i = Some s ∧ 1%Z ∈ s.
Proof. apply (proj1 (inverted_index_content sample_rr_sets 3 1)). lia. Defined.

(** X2: a returned seed set has at most [k] elements (none when [k] is
    negative), and each of them is a vertex id below [num_vertices]. *)
Theorem seeds_within_budget (rr_sets : list (gset Z)) (k : Z) (num_vertices : nat)
    (seeds : list nat) :
  find_seed_set rr_sets k num_vertices = Ok seeds →
  (Z.of_nat (length seeds) ≤ Z.max k 0)%Z
  ∧ Forall (λ v, v < num_vertices) seeds.
Proof. apply find_seed_set_seeds. Qed.

Lemma seeds_within_budget_witness :
  (Z.of_nat (length [1; 2]) ≤ Z.max 5 0)%Z ∧ Forall (λ v, v < 3) [1; 2].
Proof.
  apply (seeds_within_budget sample_rr_sets 5 3 [1; 2]). vm_compute. reflexivity.
Defined.

(** X3: in every state the loop passes through, the mask entry of an RR set
    is true exactly when the set contains one of the seeds selected so far. *)
Theorem covered_mask_meaning (rr_sets : list (gset Z)) (num_vertices : nat)
    (st : state) (i : nat) :
  reachable rr_sets num_vertices st →
  length (covered_rr_mask st) = length rr_sets
  ∧ (covered_rr_mask st !! i = Some true ↔ covered_by rr_sets (seed_set st) i).
Proof.
  intros Hreach. split; [|by eapply reachable_mask].
  by destruct (reachable_shape _ _ _ Hreach) as (_ & ? & _).
Qed.

(** After the first pass has selected vertex 1, the mask is true at the two
    RR sets that contain vertex 1 and false at the third, and the theorem
    relates each of the three entries to the seed set [1]. *)
Lemma covered_mask_meaning_witness :
  covered_rr_mask sample_state1 = [true; true; false]
  ∧ seed_set sample_state1 = [1]
  ∧ length (covered_rr_mask sample_state1) = length sample_rr_sets
  ∧ covered_by sample_rr_sets (seed_set sample_state1) 0
  ∧ covered_by sample_rr_sets (seed_set sample_state1) 1
  ∧ ¬ covered_by sample_rr_sets (seed_set sample_state1) 2.
Proof.
  pose proof (covered_mask_meaning sample_rr_sets 3 sample_state1 0
                sample_reachable_after_one_pass) as [Hlen H0].
  pose proof (covered_mask_meaning sample_rr_sets 3 sample_state1 1
                sample_reachable_after_one_pass) as [_ H1].
  pose proof (covered_mask_meaning sample_rr_sets 3 sample_state1 2
                sample_reachable_after_one_pass) as [_ H2].
  split_and!; [reflexivity|reflexivity|exact Hlen| | |].
  - apply H0. reflexivity.
  - apply H1. reflexivity.
  - intros Hc. apply H2 in Hc. discriminate Hc.
Defined.

(** X4: when every id occurring in an RR set is a vertex (at least 0 and
    below [num_vertices]), the vertex appended by a pass of the loop is
    below [num_vertices]; if it was not selected before, it is contained in
    at least one uncovered RR set, no unselected vertex is contained in more
    uncovered RR sets, and among the unselected vertices contained in as
    many it has the smallest id; it can be a vertex selected before only
    when every vertex has been selected. *)
Theorem greedy_choice (rr_sets : list (gset Z)) (num_vertices : nat)
    (st st' : state) :
  in_bounds rr_sets num_vertices →
  reachable rr_sets num_vertices st →
  select_step rr_sets (build_index rr_sets num_vertices) st = Ok (Some st') →
  ∃ best,
    seed_set st' = seed_set st ++ [best] ∧ best < num_vertices
    ∧ (((best ∉ seed_set st)
        ∧ (0 < count_uncovered rr_sets (covered_rr_mask st) best)
        ∧ ∀ u, u < num_vertices → u ∉ seed_set st →
            count_uncovered rr_sets (covered_rr_mask st) u
            ≤ count_uncovered rr_sets (covered_rr_mask st) best
            ∧ (count_uncovered rr_sets (covered_rr_mask st) u
               = count_uncovered rr_sets (covered_rr_mask st) best → best ≤ u))
       ∨ (best ∈ seed_set st ∧ ∀ u, u < num_vertices → u ∈ seed_set st)).
Proof.
  intros Hin Hreach. apply select_step_choice. by apply reachable_invariant.
Qed.

Lemma greedy_choice_witness :
  ∃ best,
    seed_set sample_state1 = seed_set sample_state0 ++ [best] ∧ best < 3
    ∧ (((best ∉ seed_set sample_state0)
        ∧ (0 < count_uncovered sample_rr_sets (covered_rr_mask sample_state0) best)
        ∧ ∀ u, u < 3 → u ∉ seed_set sample_state0 →
            count_uncovered sample_rr_sets (covered_rr_mask sample_state0) u
            ≤ count_uncovered sample_rr_sets (covered_rr_mask sample_state0) best
            ∧ (count_uncovered sample_rr_sets (covered_rr_mask sample_state0) u
               = count_uncovered sample_rr_sets (covered_rr_mask sample_state0) best
               → best ≤ u))
       ∨ (best ∈ seed_set sample_state0 ∧ ∀ u, u < 3 → u ∈ seed_set sample_state0)).
Proof.
  apply (greedy_choice sample_rr_sets 3 sample_state0 sample_state1).
  - exact SelectorProperties.sample_in_bounds.
  - exact sample_reachable.
  - vm_compute. reflexivity.
Defined.

(** X5: when every id occurring in an RR set is a vertex (at least 0 and
    below [num_vertices]) and the budget does not exceed [num_vertices],
    the returned seed set has no repeated vertex. *)
Theorem no_repeat_within_vertex_count (rr_sets : list (gset Z)) (k : Z)
    (num_vertices : nat) (seeds : list nat) :
  in_bounds rr_sets num_vertices →
  (k ≤ Z.of_nat num_vertices)%Z →
  find_seed_set rr_sets k num_vertices = Ok seeds → NoDup seeds.
Proof.
  intros Hin Hk [[-> _]|(_ & _ & st0 & st & Hinit & Hloop & ->)]%find_seed_set_run.
  { constructor. }
  apply initial_state_invariant in Hinit as Hinv.
  apply initial_state_seeds in Hinit as [Hseeds0 _].
  eapply (select_loop_NoDup _ _ _ st0); [done|done| | |done].
  - rewrite Hseeds0. constructor.
  - rewrite Hseeds0. simpl. lia.
Qed.

Lemma no_repeat_within_vertex_count_witness : NoDup [1; 2].
Proof.
  apply (no_repeat_within_vertex_count sample_rr_sets 3 3 [1; 2]).
  - exact SelectorProperties.sample_in_bounds.
  - lia.
  - vm_compute. reflexivity.
Defined.

(** X6: when every id occurring in an RR set is a vertex (at least 0 and
    below [num_vertices]) and the selector returns fewer than [k] seeds,
    every RR set that is not empty contains one of the returned seeds. *)
Theorem early_stop_covers_all (rr_sets : list (gset Z)) (k : Z) (num_vertices : nat)
    (seeds : list nat) :
  in_bounds rr_sets num_vertices →
  find_seed_set rr_sets k num_vertices = Ok seeds →
  (Z.of_nat (length seeds) < k)%Z →
  ∀ i s v, rr_sets !! i = Some s → v ∈ s → ∃ u, u ∈ seeds ∧ Z.of_nat u ∈ s.
Proof. apply short_run_covers. Qed.

Lemma early_stop_covers_all_witness :
  ∃ u, u ∈ [1; 2] ∧ Z.of_nat u ∈ ({[0; 1]}%Z : gset Z).
Proof.
  apply (early_stop_covers_all sample_rr_sets 5 3 [1; 2]
           SelectorProperties.sample_in_bounds) with (i := 0) (v := 0%Z).
  - vm_compute. reflexivity.
  - simpl. lia.
  - reflexivity.
  - set_unfold. lia.
Defined.

(** X7: when every id occurring in an RR set is a vertex (at least 0 and
    below [num_vertices]), there is at least one vertex, and the number of
    RR sets fits a 32-bit counter, the selector raises no exception: it
    returns a seed set. *)
Theorem selector_returns (rr_sets : list (gset Z)) (k : Z) (num_vertices : nat) :
  in_bounds rr_sets num_vertices → 0 < num_vertices →
  (Z.of_nat (length rr_sets) ≤ INT32_MAX)%Z →
  ∃ seeds, find_seed_set rr_sets k num_vertices = Ok seeds.
Proof. apply find_seed_set_returns. Qed.

Lemma selector_returns_witness :
  ∃ seeds, find_seed_set sample_rr_sets 5 3 = Ok seeds.
Proof.
  apply (selector_returns sample_rr_sets 5 3).
  - exact SelectorProperties.sample_in_bounds.
  - lia.
  - by vm_compute.
Defined.

End SelectionProperties.

(** * Further properties of the sampler *)

Module SamplingFacts.
Import Ris RisSpec RisExamples RisFacts SamplerFacts SamplingSpec.

Lemma efilt_edges (g : Graph) (act : list bool) (s t : nat) :
  (s, t) ∈ view_edges (graph_view_efilt g act)
  ↔ ∃ i, edges g !! i = Some (s, t) ∧ act !! i = Some true.
Proof.
  simpl. rewrite list_elem_of_fmap. split.
  - intros ([e b] & -> & [Hb Hin]%list_elem_of_filter). simpl in *. subst b.
    apply list_elem_of_lookup in Hin as (i & Hi).
    apply lookup_zip_with_Some in Hi as (e' & b' & [= <- <-] & He & Hb).
    by exists i.
  - intros (i & He & Hb). exists ((s, t), true). split; [done|].
    apply list_elem_of_filter. split; [done|].
    apply list_elem_of_lookup. exists i. rewrite lookup_zip_with, He. simpl.
    by rewrite Hb.
Qed.

Lemma np_greater_true (x y : list Q) (i : nat) :
  np_greater x y !! i = Some true
  ↔ ∃ xi yi, x !! i = Some xi ∧ y !! i = Some yi ∧ (yi < xi)%Q.
Proof.
  unfold np_greater. rewrite lookup_zip_with_Some. split.
  - intros (xi & yi & Hlt & Hx & Hy). exists xi, yi. split_and!; [done..|].
    by apply Qlt_bool_spec.
  - intros (xi & yi & Hx & Hy & Hlt). exists xi, yi. split_and!; [|done..].
    symmetry. by apply Qlt_bool_spec.
Qed.

Lemma rtc_flip_iff {A : Type} (R1 R2 : relation A) (x y : A) :
  (∀ s t, R1 s t ↔ R2 t s) → rtc R1 x y ↔ rtc R2 y x.
Proof.
  intros Hflip. split.
  - revert y. apply rtc_ind_r; [done|].
    intros y z _ Hyz%Hflip IH. by eapply rtc_l.
  - revert y. apply rtc_ind_l; [done|].
    intros z y Hzy%Hflip _ IH. by eapply rtc_r.
Qed.

Lemma live_edge_is_edge (g : Graph) (p_map : PropertyMap) (us : list Q) (s t : nat) :
  live_edge g p_map us s t → edge_rel g s t.
Proof. intros (i & p & u & He & _). by eapply list_elem_of_lookup_2. Qed.

Lemma rr_set_of_live (g : Graph) (p_map : PropertyMap) (root : nat) (us : list Q)
    (v : nat) :
  wf_graph g → root < num_vertices g →
  v ∈ rr_set_of g p_map root us ↔ rtc (live_edge g p_map us) v root.
Proof.
  intros [Hedges Hsmall] Hroot. rewrite rr_set_of_reached. unfold shortest_distance.
  cbn [graph_view_reversed view_edges view_num_vertices graph_view_efilt].
  assert (Hflip : ∀ s t,
    (s, t) ∈ (λ e : nat * nat, (e.2, e.1))
               <$> view_edges (graph_view_efilt g (np_greater (a p_map) us))
    ↔ live_edge g p_map us t s).
  { intros s t. rewrite list_elem_of_fmap. split.
    - intros ([t' s'] & [= -> ->] & (i & He & Hact)%efilt_edges).
      apply np_greater_true in Hact as (p & u & Hp & Hu & Hlt). by exists i, p, u.
    - intros (i & p & u & He & Hp & Hu & Hlt). exists (t, s). split; [done|].
      apply efilt_edges. exists i. split; [done|].
      apply np_greater_true. by exists p, u. }
  rewrite search_reaches; [by apply rtc_flip_iff|done|done|].
  intros s t Hst%Hflip%live_edge_is_edge. by destruct (Hedges _ _ Hst).
Qed.

End SamplingFacts.

Module SamplingProperties.
Import Ris RisSpec RisExamples RisFacts SamplerFacts SamplingSpec SamplingFacts.

(** X8: for any probabilities and any draws, the RR set returned by the
    sampler consists of exactly the vertices from which the drawn root can
    be reached along live edges, an edge being live when its draw is
    strictly below its probability. *)
Theorem rr_set_is_live_reachability {RNG : Type}
    (randint : nat → nat → RNG → nat * RNG) (rand : nat → RNG → list Q * RNG)
    (g : Graph) (p_map : PropertyMap) (rng : RNG) (v : nat) :
  randint_contract randint → wf_graph g → 0 < num_vertices g →
  v ∈ (generate_rr_set randint rand g p_map rng).1
  ↔ rtc (live_edge g p_map (rand (num_edges g) (randint 0 (num_vertices g) rng).2).1)
        v (randint 0 (num_vertices g) rng).1.
Proof.
  intros Hint Hwf Hn. rewrite generate_rr_set_unfold by lia. simpl.
  apply rr_set_of_live; [done|]. apply Hint. lia.
Qed.

Lemma rr_set_is_live_reachability_witness :
  3 ∈ (generate_rr_set counter_randint counter_rand chain_graph
         (constant_map "double" 1 3) 2).1
  ↔ rtc (live_edge chain_graph (constant_map "double" 1 3)
           (counter_rand (num_edges chain_graph)
              (counter_randint 0 (num_vertices chain_graph) 2).2).1)
        3 (counter_randint 0 (num_vertices chain_graph) 2).1.
Proof.
  apply (rr_set_is_live_reachability counter_randint counter_rand chain_graph
           (constant_map "double" 1 3) 2 3).
  - exact counter_randint_contract.
  - exact chain_graph_wf.
  - simpl. lia.
Defined.

(** X9: whatever the probabilities and the draws, every vertex of the RR
    set is an ancestor of the drawn root in the full graph. *)
Theorem rr_set_within_ancestors {RNG : Type}
    (randint : nat → nat → RNG → nat * RNG) (rand : nat → RNG → list Q * RNG)
    (g : Graph) (p_map : PropertyMap) (rng : RNG) (v : nat) :
  randint_contract randint → wf_graph g → 0 < num_vertices g →
  v ∈ (generate_rr_set randint rand g p_map rng).1 →
  ancestor g (randint 0 (num_vertices g) rng).1 v.
Proof.
  intros Hint Hwf Hn. rewrite generate_rr_set_unfold by lia. simpl.
  rewrite rr_set_of_live; [|done|apply Hint; lia].
  apply rtc_subrel. intros s t. apply live_edge_is_edge.
Qed.

(** With every probability one half and the counting generator started at
    2, the root is vertex 2 and the three draws are 3/4, 0 and 1/4: the edge
    0→1 is dead, the edges 1→2 and 3→2 are live, and vertex 1 of the RR set
    is an ancestor of the root through the edge 1→2. *)
Lemma rr_set_within_ancestors_witness :
  (counter_randint 0 (num_vertices chain_graph) 2).1 = 2
  ∧ (generate_rr_set counter_randint counter_rand chain_graph
       (constant_map "double" (1 # 2) 3) 2).1 = {[1; 2; 3]}
  ∧ ancestor chain_graph 2 1.
Proof.
  split_and!; [reflexivity|vm_compute; reflexivity|].
  apply (rr_set_within_ancestors counter_randint counter_rand chain_graph
           (constant_map "double" (1 # 2) 3) 2 1).
  - exact counter_randint_contract.
  - exact chain_graph_wf.
  - simpl. lia.
  - vm_compute. reflexivity.
Defined.

End SamplingProperties.

(** * Properties of the loader *)

Module LoaderFacts.
Import Ris Loader LoaderSpec LoaderExamples.

(** *** Keeping first occurrences *)

Lemma elem_of_keep_first {A : Type} `{EqDecision A} (seen l : list A) (x : A) :
  x ∈ keep_first seen l ↔ x ∈ l ∧ x ∉ seen.
Proof.
  revert seen. induction l as [|y l IH]; intros seen; simpl.
  - split; [by intros ?%elem_of_nil|by intros [?%elem_of_nil _]].
  - destruct (decide (y ∈ seen)) as [Hy|Hy].
    + rewrite IH, elem_of_cons. split; [tauto|]. intros [[->|?] ?]; tauto.
    + rewrite !elem_of_cons, IH, elem_of_cons. split.
      * intros [->|[? ?]]; tauto.
      * intros [[->|?] ?]; [tauto|]. destruct (decide (x = y)); tauto.
Qed.

Lemma NoDup_keep_first {A : Type} `{EqDecision A} (seen l : list A) :
  NoDup (keep_first seen l).
Proof.
  revert seen. induction l as [|y l IH]; intros seen; simpl; [constructor|].
  destruct (decide (y ∈ seen)); [done|]. constructor; [|done].
  rewrite elem_of_keep_first, elem_of_cons. tauto.
Qed.

Lemma keep_first_sublist {A : Type} `{EqDecision A} (seen l : list A) :
  keep_first seen l `sublist_of` l.
Proof.
  revert seen. induction l as [|y l IH]; intros seen; simpl; [done|].
  destruct (decide (y ∈ seen)); [by apply sublist_cons|by apply sublist_skip].
Qed.

Lemma sorted_fmap_S (l : list nat) :
  StronglySorted lt l → StronglySorted lt (S <$> l).
Proof.
  induction 1 as [|x l Hl IH Hx]; simpl; constructor; [done|].
  apply Forall_fmap. eapply Forall_impl; [done|]. simpl. lia.
Qed.

(** The elements kept stand, in order, at increasing positions of the
    list, each at the first position where it occurs. *)
Lemma keep_first_positions {A : Type} `{EqDecision A} (P : A → Prop)
    `{∀ x, Decision (P x)} (seen l : list A) :
  ∃ idxs, StronglySorted lt idxs
          ∧ Forall2 (λ i x, first_at l i x ∧ x ∉ seen) idxs
                    (filter P (keep_first seen l)).
Proof.
  revert seen. induction l as [|y l IH]; intros seen; simpl.
  - exists []. split; constructor.
  - assert (Hshift : ∀ (seen' : list A) (idxs : list nat) (ys : list A),
              y ∈ seen' →
              Forall2 (λ i x, first_at l i x ∧ x ∉ seen') idxs ys →
              Forall2 (λ i x, first_at (y :: l) i x ∧ x ∉ seen') (S <$> idxs) ys).
    { intros seen' idxs ys Hy Hall. apply Forall2_fmap_l.
      eapply Forall2_impl; [done|]. simpl. intros i x [[Hi Hfirst] Hx].
      split; [|done]. split; [done|]. intros [|j] Hj; simpl.
      - intros [= ->]. done.
      - apply Hfirst. lia. }
    destruct (decide (y ∈ seen)) as [Hy|Hy].
    + destruct (IH seen) as (idxs & Hsorted & Hall). exists (S <$> idxs).
      split; [by apply sorted_fmap_S|by apply Hshift].
    + destruct (IH (y :: seen)) as (idxs & Hsorted & Hall).
      apply (Hshift (y :: seen)) in Hall; [|by left].
      assert (Hall' : Forall2 (λ i x, first_at (y :: l) i x ∧ x ∉ seen) (S <$> idxs)
                        (filter P (keep_first (y :: seen) l))).
      { eapply Forall2_impl; [done|]. simpl. intros i x [Hfirst Hx].
        split; [done|]. intros Hin. apply Hx. by right. }
      rewrite filter_cons. destruct (decide (P y)) as [Hp|Hp].
      * exists (0 :: (S <$> idxs)). split.
        -- constructor; [by apply sorted_fmap_S|].
           apply Forall_fmap, Forall_forall. intros i _. simpl. lia.
        -- constructor; [|done]. split; [|done]. split; [done|]. intros j Hj. lia.
      * exists (S <$> idxs). split; [by apply sorted_fmap_S|done].
Qed.

(** *** The two dictionaries *)

Lemma compact_to_original_snoc (l : list Z) (x : Z) :
  compact_to_original_of (l ++ [x]) = <[length l := x]> (compact_to_original_of l).
Proof.
  unfold compact_to_original_of. rewrite imap_app, foldl_app. simpl.
  by rewrite Nat.add_0_r.
Qed.

Lemma original_to_compact_snoc (l : list Z) (x : Z) :
  original_to_compact_of (l ++ [x]) = <[x := length l]> (original_to_compact_of l).
Proof.
  unfold original_to_compact_of. rewrite imap_app, foldl_app. simpl.
  by rewrite Nat.add_0_r.
Qed.

Lemma compact_to_original_lookup (l : list Z) (i : nat) :
  compact_to_original_of l !! i = l !! i.
Proof.
  induction l as [|x l IH] using rev_ind; [done|].
  rewrite compact_to_original_snoc. destruct (decide (i = length l)) as [->|Hne].
  - rewrite lookup_insert_eq, lookup_app_r by lia. by rewrite Nat.sub_diag.
  - rewrite lookup_insert_ne, IH by done.
    destruct (decide (i < length l)) as [Hlt|Hge].
    + by rewrite lookup_app_l.
    + rewrite !lookup_ge_None_2; [done| |lia]. rewrite length_app. simpl. lia.
Qed.

Lemma original_to_compact_lookup (l : list Z) (x : Z) (i : nat) :
  NoDup l → original_to_compact_of l !! x = Some i ↔ l !! i = Some x.
Proof.
  induction l as [|y l IH] using rev_ind; intros Hnd; [done|].
  apply NoDup_app in Hnd as (Hnd & Hfresh & _).
  rewrite original_to_compact_snoc. destruct (decide (x = y)) as [->|Hne].
  - rewrite lookup_insert_eq. split.
    + intros [= <-]. rewrite lookup_app_r by lia. by rewrite Nat.sub_diag.
    + intros Hi. apply lookup_snoc_Some in Hi as [[_ Hi]|[-> _]]; [|done].
      exfalso. eapply Hfresh; [by eapply list_elem_of_lookup_2|by left].
  - rewrite lookup_insert_ne, (IH Hnd) by done. split.
    + apply lookup_app_l_Some.
    + intros Hi. apply lookup_snoc_Some in Hi as [[_ Hi]|[_ ?]]; [done|congruence].
Qed.

(** *** The compact edges *)

Lemma series_map_present (un xs : list Z) :
  NoDup un → (∀ x, x ∈ xs → x ∈ un) →
  ∃ ys, series_map (original_to_compact_of un) xs = Some ys
        ∧ Forall2 (λ x y, un !! y = Some x) xs ys.
Proof.
  intros Hnd Hin.
  destruct (mapM_is_Some_2 (λ x, original_to_compact_of un !! x) xs) as [ys Hys].
  { apply Forall_forall. intros x (i & Hi)%Hin%list_elem_of_lookup_1. simpl.
    exists i. by apply original_to_compact_lookup. }
  exists ys. split; [done|]. apply mapM_Some in Hys.
  eapply Forall2_impl; [done|]. intros x y. by apply original_to_compact_lookup.
Qed.

Lemma compact_edges_spec (ravel_K : list (Z * Z) → list Z) (cl : list (Z * Z)) :
  ravel_contract ravel_K →
  ∃ cs ct,
    series_map (original_to_compact_of (pd_unique (ravel_K cl))) (cl.*1) = Some cs
    ∧ series_map (original_to_compact_of (pd_unique (ravel_K cl))) (cl.*2) = Some ct
    ∧ Forall2 (translates (pd_unique (ravel_K cl))) cl (column_stack cs ct).
Proof.
  intros Hravel. set (un := pd_unique (ravel_K cl)).
  assert (Hnd : NoDup un) by apply NoDup_keep_first.
  assert (Hun : ∀ x, x ∈ un ↔ ∃ r, r ∈ cl ∧ (x = r.1 ∨ x = r.2)).
  { intros x. unfold un, pd_unique. rewrite elem_of_keep_first, (Hravel cl x).
    split; [tauto|]. intros ?. split; [done|]. by intros ?%elem_of_nil. }
  destruct (series_map_present un (cl.*1) Hnd) as (cs & Hcs & Hfs).
  { intros x (r & -> & Hr)%list_elem_of_fmap. apply Hun. exists r. auto. }
  destruct (series_map_present un (cl.*2) Hnd) as (ct & Hct & Hft).
  { intros x (r & -> & Hr)%list_elem_of_fmap. apply Hun. exists r. auto. }
  exists cs, ct. split_and!; [done..|].
  apply Forall2_length in Hfs as Hls. apply Forall2_length in Hft as Hlt.
  rewrite length_fmap in Hls, Hlt.
  apply Forall2_same_length_lookup_2.
  { unfold column_stack. rewrite length_zip_with. lia. }
  intros i r e Hr He. unfold column_stack in He.
  apply lookup_zip_with_Some in He as (s & t & -> & Hs & Ht). split; simpl.
  - eapply (Forall2_lookup_lr _ _ _ i _ _ Hfs); [|done].
    by rewrite list_lookup_fmap, Hr.
  - eapply (Forall2_lookup_lr _ _ _ i _ _ Hft); [|done].
    by rewrite list_lookup_fmap, Hr.
Qed.

(** *** Cleaning *)

Lemma elem_of_cleaned (rows : list (Z * Z)) (r : Z * Z) :
  r ∈ cleaned rows ↔ r ∈ rows ∧ r.1 ≠ r.2.
Proof.
  unfold cleaned, drop_self_loops, drop_duplicates.
  rewrite list_elem_of_filter, elem_of_keep_first. split; [tauto|].
  intros [? ?]. split_and!; [done..|]. by intros ?%elem_of_nil.
Qed.

Lemma NoDup_cleaned (rows : list (Z * Z)) : NoDup (cleaned rows).
Proof. apply NoDup_filter, NoDup_keep_first. Qed.

Lemma cleaned_sublist (rows : list (Z * Z)) : cleaned rows `sublist_of` rows.
Proof.
  unfold cleaned, drop_self_loops, drop_duplicates.
  etrans; [apply sublist_filter|apply keep_first_sublist].
Qed.

Lemma cleaned_positions (rows : list (Z * Z)) :
  ∃ idxs, StronglySorted lt idxs ∧ Forall2 (first_at rows) idxs (cleaned rows).
Proof.
  destruct (keep_first_positions (λ r : Z * Z, r.1 ≠ r.2) [] rows)
    as (idxs & Hsorted & Hall).
  exists idxs. split; [done|]. eapply Forall2_impl; [done|]. by intros i x [? _].
Qed.

(** *** Vertices created by the edge list *)

Lemma vertices_needed_upper (es : list (nat * nat)) (n : nat) :
  (∀ e, e ∈ es → e.1 < n ∧ e.2 < n) → vertices_needed es ≤ n.
Proof.
  induction es as [|e es IH]; intros Hes; simpl; [lia|].
  destruct (Hes e) as [? ?]; [by left|].
  assert (vertices_needed es ≤ n) by (apply IH; intros e' ?; apply Hes; by right).
  unfold vertices_needed in *. lia.
Qed.

Lemma vertices_needed_lower (es : list (nat * nat)) (e : nat * nat) :
  e ∈ es → e.1 < vertices_needed es ∧ e.2 < vertices_needed es.
Proof.
  induction es as [|e' es IH]; [by intros ?%elem_of_nil|].
  intros [->|Hin%IH]%elem_of_cons; simpl; fold (vertices_needed es); lia.
Qed.

(** *** The graph built from the translated rows *)

Lemma translated_back (un : list Z) (cl : list (Z * Z)) (es : list (nat * nat))
    (c2o : gmap nat Z) :
  Forall2 (translates un) cl es → (∀ i, c2o !! i = un !! i) →
  (λ e : nat * nat, (c2o !! e.1, c2o !! e.2)) <$> es
  = (λ r : Z * Z, (Some r.1, Some r.2)) <$> cl.
Proof.
  intros Htr Hc2o. induction Htr as [|r e cl' es' [H1 H2] _ IH]; [done|].
  rewrite !fmap_cons. f_equal; [|apply IH]. by rewrite !Hc2o, H1, H2.
Qed.

Section Translated.
Variable un : list Z.
Variable cl : list (Z * Z).
Variable es : list (nat * nat).
Hypothesis un_NoDup : NoDup un.
Hypothesis un_used : ∀ x, x ∈ un → ∃ r, r ∈ cl ∧ (x = r.1 ∨ x = r.2).
Hypothesis translated : Forall2 (translates un) cl es.

Lemma translated_edge (e : nat * nat) :
  e ∈ es → ∃ r, r ∈ cl ∧ translates un r e.
Proof.
  intros (i & Hi)%list_elem_of_lookup_1.
  destruct (Forall2_lookup_r _ _ _ _ _ translated Hi) as (r & Hr & Ht).
  exists r. split; [by eapply list_elem_of_lookup_2|done].
Qed.

Lemma translated_lt (e : nat * nat) :
  e ∈ es → e.1 < length un ∧ e.2 < length un.
Proof.
  intros (r & _ & [H1 H2])%translated_edge.
  split; by eapply lookup_lt_Some.
Qed.

Lemma translated_endpoint (v : nat) :
  v < length un → ∃ e, e ∈ es ∧ (v = e.1 ∨ v = e.2).
Proof.
  intros (x & Hx)%lookup_lt_is_Some_2.
  destruct (un_used x) as (r & (i & Hi)%list_elem_of_lookup_1 & Hxr);
    [by eapply list_elem_of_lookup_2|].
  destruct (Forall2_lookup_l _ _ _ _ _ translated Hi) as (e & He & [H1 H2]).
  exists e. split; [by eapply list_elem_of_lookup_2|].
  destruct Hxr as [-> | ->]; [left|right]; by eapply NoDup_lookup.
Qed.

Lemma translated_vertices : vertices_needed es = length un.
Proof.
  apply Nat.le_antisymm.
  - apply vertices_needed_upper. intros e. apply translated_lt.
  - destruct (decide (length un = 0)) as [->|Hpos]; [lia|].
    destruct (translated_endpoint (length un - 1)) as (e & He & Hv); [lia|].
    apply vertices_needed_lower in He. lia.
Qed.



End Translated.

(** *** Unfolding a successful load *)

Section Environment.
Variable path_exists : string → bool.
Variable read_csv : string → string → option string → compression
                    → load_exn + list (Z * Z).
Variable ravel_K : list (Z * Z) → list Z.
Hypothesis ravel_ok : ravel_contract ravel_K.

Lemma unique_nodes_used (cl : list (Z * Z)) (x : Z) :
  x ∈ pd_unique (ravel_K cl) ↔ ∃ r, r ∈ cl ∧ (x = r.1 ∨ x = r.2).
Proof.
  unfold pd_unique. rewrite elem_of_keep_first, (ravel_ok cl x).
  split; [tauto|]. intros ?. split; [done|]. by intros ?%elem_of_nil.
Qed.

Lemma load_success (file_path : string) (directed : bool) (sep : string)
    (comment : option string) (prop_type : string) (prop_value : Q) (r : loaded) :
  load_graph_from_edge_list path_exists read_csv ravel_K file_path directed sep comment
    prop_type prop_value = inr r →
  ∃ rows,
    path_exists file_path = true
    ∧ read_csv file_path sep comment (if ends_with ".gz" file_path then Gzip else Infer)
      = inr rows
    ∧ prop_type = "uniform"%string
    ∧ is_directed r = directed
    ∧ Forall2 (translates (pd_unique (ravel_K (cleaned rows)))) (cleaned rows)
              (edges (graph r))
    ∧ num_vertices (graph r) = length (pd_unique (ravel_K (cleaned rows)))
    ∧ edge_properties (graph r)
      = {[ "p"%string := filled_double_map (num_edges (graph r)) prop_value ]}
    ∧ compact_to_original r = compact_to_original_of (pd_unique (ravel_K (cleaned rows))).
Proof.
  unfold load_graph_from_edge_list.
  destruct (path_exists file_path) eqn:Hex; simpl; [|done].
  destruct (read_csv _ _ _ _) as [e|rows] eqn:Hread; [done|].
  fold (cleaned rows).
  destruct (compact_edges_spec ravel_K (cleaned rows) ravel_ok)
    as (cs & ct & -> & -> & Htr).
  destruct (String.eqb prop_type "uniform") eqn:Hpt; [|done].
  apply String.eqb_eq in Hpt. intros [= <-]. exists rows. simpl.
  split_and!; [done..| |done|done].
  apply (translated_vertices _ (cleaned rows)); [apply NoDup_keep_first| |done].
  intros x. apply unique_nodes_used.
Qed.

Lemma load_outcome_uniform (file_path : string) (directed : bool) (sep : string)
    (comment : option string) (prop_value : Q) (rows : list (Z * Z)) :
  path_exists file_path = true →
  read_csv file_path sep comment (if ends_with ".gz" file_path then Gzip else Infer)
  = inr rows →
  ∃ r, load_graph_from_edge_list path_exists read_csv ravel_K file_path directed sep
         comment "uniform" prop_value = inr r.
Proof.
  intros Hex Hread. unfold load_graph_from_edge_list. rewrite Hex, Hread. simpl.
  fold (cleaned rows).
  destruct (compact_edges_spec ravel_K (cleaned rows) ravel_ok)
    as (cs & ct & -> & -> & _).
  eauto.
Qed.

End Environment.

Lemma ravel_columns_contract : ravel_contract ravel_columns.
Proof.
  intros rows x. unfold ravel_columns. rewrite elem_of_app, !list_elem_of_fmap. split.
  - intros [(r & -> & Hr)|(r & -> & Hr)]; exists r; auto.
  - intros (r & Hr & [-> | ->]); [left|right]; by exists r.
Qed.

Lemma sample_load :
  load_graph_from_edge_list sample_exists sample_read_csv ravel_columns
    "edges.txt" true " " None "uniform" (1 # 10) = inr sample_loaded.
Proof. vm_compute. reflexivity. Qed.

End LoaderFacts.

Module LoaderProperties.
Import Ris RisSpec Loader LoaderSpec LoaderExamples LoaderFacts.

(** X10: the loader fails in three cases, tried in this order: a path that
    does not exist raises [FileNotFoundError] whatever the other arguments;
    an exception of [read_csv] is re-raised unchanged; a propagation type
    other than "uniform" raises [NotImplementedError]. In every other case
    it returns a graph. *)
Theorem loader_outcomes (path_exists : string → bool)
    (read_csv : string → string → option string → compression
                → load_exn + list (Z * Z))
    (ravel_K : list (Z * Z) → list Z)
    (file_path : string) (directed : bool) (sep : string) (comment : option string)
    (prop_type : string) (prop_value : Q) :
  ravel_contract ravel_K →
  let load := load_graph_from_edge_list path_exists read_csv ravel_K file_path
                directed sep comment prop_type prop_value in
  let read := read_csv file_path sep comment
                (if ends_with ".gz" file_path then Gzip else Infer) in
  (path_exists file_path = false → load = inl FileNotFoundError)
  ∧ (path_exists file_path = true → ∀ e, read = inl e → load = inl e)
  ∧ (path_exists file_path = true → ∀ rows, read = inr rows →
       (prop_type ≠ "uniform"%string → load = inl NotImplementedError)
       ∧ (prop_type = "uniform"%string → ∃ r, load = inr r)).
Proof.
  intros Hravel load read. split_and!.
  - intros Hex. unfold load, load_graph_from_edge_list. by rewrite Hex.
  - intros Hex e Hread. unfold load, load_graph_from_edge_list. rewrite Hex. simpl.
    fold read. by rewrite Hread.
  - intros Hex rows Hread. split.
    + intros Hpt. unfold load, load_graph_from_edge_list. rewrite Hex. simpl.
      fold read. rewrite Hread. fold (cleaned rows).
      destruct (compact_edges_spec ravel_K (cleaned rows) Hravel)
        as (cs & ct & -> & -> & _).
      apply String.eqb_neq in Hpt. by rewrite Hpt.
    + intros ->. by eapply load_outcome_uniform.
Qed.

Lemma loader_outcomes_witness :
  let load := load_graph_from_edge_list sample_exists sample_read_csv ravel_columns
                "broken.txt" true " " None "uniform" (1 # 10) in
  let read := sample_read_csv "broken.txt" " " None
                (if ends_with ".gz" "broken.txt" then Gzip else Infer) in
  (sample_exists "broken.txt" = false → load = inl FileNotFoundError)
  ∧ (sample_exists "broken.txt" = true → ∀ e, read = inl e → load = inl e)
  ∧ (sample_exists "broken.txt" = true → ∀ rows, read = inr rows →
       ("uniform"%string ≠ "uniform"%string → load = inl NotImplementedError)
       ∧ ("uniform"%string = "uniform"%string → ∃ r, load = inr r)).
Proof.
  apply (loader_outcomes sample_exists sample_read_csv ravel_columns
           "broken.txt" true " " None "uniform" (1 # 10)).
  exact ravel_columns_contract.
Defined.



(** X12: in a graph returned by the loader every edge joins vertices below
    the vertex count, every vertex is an endpoint of some edge, and the map
    back to the ids of the file is defined exactly on the vertices and sends
    different vertices to different ids. *)
Theorem loaded_graph_is_dense (path_exists : string → bool)
    (read_csv : string → string → option string → compression
                → load_exn + list (Z * Z))
    (ravel_K : list (Z * Z) → list Z)
    (file_path : string) (directed : bool) (sep : string) (comment : option string)
    (prop_type : string) (prop_value : Q) (r : loaded) :
  ravel_contract ravel_K →
  load_graph_from_edge_list path_exists read_csv ravel_K file_path directed sep comment
    prop_type prop_value = inr r →
  (∀ s t, (s, t) ∈ edges (graph r) →
     s < num_vertices (graph r) ∧ t < num_vertices (graph r))
  ∧ (∀ v, v < num_vertices (graph r) →
       ∃ s t, (s, t) ∈ edges (graph r) ∧ (v = s ∨ v = t))
  ∧ (∀ v, is_Some (compact_to_original r !! v) ↔ v < num_vertices (graph r))
  ∧ (∀ v w x, compact_to_original r !! v = Some x →
       compact_to_original r !! w = Some x → v = w).
Proof.
  intros Hravel (rows & _ & _ & _ & _ & Htr & Hn & _ & Hc2o)%load_success; [|done].
  rewrite Hn, Hc2o. split_and!.
  - intros s t Hst. by apply (translated_lt _ _ _ Htr (s, t)).
  - intros v Hv.
    destruct (translated_endpoint _ (cleaned rows) _ (NoDup_keep_first _ _)
                (λ x, proj1 (unique_nodes_used ravel_K Hravel (cleaned rows) x))
                Htr v Hv) as ([s t] & He & Hvst).
    by exists s, t.
  - intros v. rewrite compact_to_original_lookup. apply lookup_lt_is_Some.
  - intros v w x. rewrite !compact_to_original_lookup.
    apply NoDup_lookup, NoDup_keep_first.
Qed.

Lemma loaded_graph_is_dense_witness :
  (∀ s t, (s, t) ∈ edges (graph sample_loaded) →
     s < num_vertices (graph sample_loaded) ∧ t < num_vertices (graph sample_loaded))
  ∧ (∀ v, v < num_vertices (graph sample_loaded) →
       ∃ s t, (s, t) ∈ edges (graph sample_loaded) ∧ (v = s ∨ v = t))
  ∧ (∀ v, is_Some (compact_to_original sample_loaded !! v)
          ↔ v < num_vertices (graph sample_loaded))
  ∧ (∀ v w x, compact_to_original sample_loaded !! v = Some x →
       compact_to_original sample_loaded !! w = Some x → v = w).
Proof.
  apply (loaded_graph_is_dense sample_exists sample_read_csv ravel_columns
           "edges.txt" true " " None "uniform" (1 # 10)).
  - exact ravel_columns_contract.
  - exact sample_load.
Defined.

(** X13: translating the edges of the returned graph back through the
    returned id map gives the rows of the file that are not self-loops,
    each once, in the order of their first occurrences in the file: the
    rows kept stand at increasing positions of the file, each at the first
    position where it occurs. *)
Theorem loader_round_trip (path_exists : string → bool)
    (read_csv : string → string → option string → compression
                → load_exn + list (Z * Z))
    (ravel_K : list (Z * Z) → list Z)
    (file_path : string) (directed : bool) (sep : string) (comment : option string)
    (prop_type : string) (prop_value : Q) (r : loaded) :
  ravel_contract ravel_K →
  load_graph_from_edge_list path_exists read_csv ravel_K file_path directed sep comment
    prop_type prop_value = inr r →
  ∃ rows kept,
    read_csv file_path sep comment (if ends_with ".gz" file_path then Gzip else Infer)
    = inr rows
    ∧ (λ e : nat * nat, (compact_to_original r !! e.1, compact_to_original r !! e.2))
        <$> edges (graph r)
      = (λ x : Z * Z, (Some x.1, Some x.2)) <$> kept
    ∧ kept `sublist_of` rows
    ∧ NoDup kept
    ∧ (∀ x, x ∈ kept ↔ x ∈ rows ∧ x.1 ≠ x.2)
    ∧ ∃ idxs, StronglySorted lt idxs ∧ Forall2 (first_at rows) idxs kept.
Proof.
  intros Hravel (rows & _ & Hread & _ & _ & Htr & _ & _ & Hc2o)%load_success; [|done].
  exists rows, (cleaned rows). split_and!; [done| | | | |].
  - eapply translated_back; [done|]. intros i. rewrite Hc2o.
    apply compact_to_original_lookup.
  - apply cleaned_sublist.
  - apply NoDup_cleaned.
  - apply elem_of_cleaned.
  - apply cleaned_positions.
Qed.

Lemma loader_round_trip_witness :
  ∃ rows kept,
    sample_read_csv "edges.txt" " " None
      (if ends_with ".gz" "edges.txt" then Gzip else Infer) = inr rows
    ∧ (λ e : nat * nat,
         (compact_to_original sample_loaded !! e.1, compact_to_original sample_loaded !! e.2))
        <$> edges (graph sample_loaded)
      = (λ x : Z * Z, (Some x.1, Some x.2)) <$> kept
    ∧ kept `sublist_of` rows
    ∧ NoDup kept
    ∧ (∀ x, x ∈ kept ↔ x ∈ rows ∧ x.1 ≠ x.2)
    ∧ ∃ idxs, StronglySorted lt idxs ∧ Forall2 (first_at rows) idxs kept.
Proof.
  apply (loader_round_trip sample_exists sample_read_csv ravel_columns
           "edges.txt" true " " None "uniform" (1 # 10)).
  - exact ravel_columns_contract.
  - exact sample_load.
Defined.

End LoaderProperties.

(** * The stages composed *)

Module PipelineFacts.
Import Ris RisSpec RisFacts SamplerFacts Coverage CoverageSpec CoverageFacts.

Section RandomSource.
Context {RNG : Type}.
Variable randint : nat → nat → RNG → nat * RNG.
Variable rand : nat → RNG → list Q * RNG.

Lemma collection_of_valid (g : Graph) (num_samples : Z) (rng : RNG) :
  passes_validation g →
  ∃ p_map,
    edge_properties g !! "p"%string = Some p_map
    ∧ (generate_rr_sets_collection randint rand g num_samples rng).1
      = Ok (sample_times randint rand (Z.to_nat num_samples) g p_map rng).1.
Proof.
  intros (p_map & Hp & Hkind). exists p_map. split; [done|].
  unfold generate_rr_sets_collection. case_bool_decide as Hn.
  - replace (Z.to_nat num_samples) with 0 by lia. done.
  - rewrite Hp.
    assert (negb (contains "float" (value_type p_map))
            && negb (contains "double" (value_type p_map)) = false) as ->.
    { destruct Hkind as [-> | ->]; [done|]. apply andb_false_r. }
    by destruct (sample_times randint rand (Z.to_nat num_samples) g p_map rng).
Qed.

Lemma collection_in_bounds (g : Graph) (num_samples : Z) (rng : RNG)
    (rr_sets : list (gset nat)) :
  (generate_rr_sets_collection randint rand g num_samples rng).1 = Ok rr_sets →
  in_bounds (int_set <$> rr_sets) (num_vertices g).
Proof.
  unfold generate_rr_sets_collection. case_bool_decide.
  { simpl. intros [= <-]. intros rr v Hrr. by apply elem_of_nil in Hrr. }
  destruct (edge_properties g !! "p"%string) as [p_map|]; [|done].
  destruct (_ && _); [done|].
  pose proof (sample_times_in_bounds randint rand g p_map (Z.to_nat num_samples) rng)
    as Hin.
  destruct (sample_times randint rand (Z.to_nat num_samples) g p_map rng) as [l rng'].
  simpl in *. by intros [= <-].
Qed.

Lemma first_sample_has_root (g : Graph) (p_map : PropertyMap) (m : nat) (rng : RNG) :
  randint_contract randint → 0 < num_vertices g → 0 < m →
  ∃ s v, (sample_times randint rand m g p_map rng).1 !! 0 = Some s ∧ v ∈ s.
Proof.
  intros Hint Hn Hm.
  destruct (sample_times_spec randint rand g p_map m rng) as (_ & _ & Hget).
  exists (generate_rr_set randint rand g p_map rng).1, (randint 0 (num_vertices g) rng).1.
  split; [by apply (Hget 0)|].
  rewrite generate_rr_set_unfold by lia. simpl. apply rr_set_of_root. apply Hint. lia.
Qed.

End RandomSource.

End PipelineFacts.

Module PipelineProperties.
Import Ris RisSpec RisExamples RisFacts SamplerFacts.
Import Coverage CoverageSpec CoverageFacts SelectionFacts.
Import Loader LoaderSpec LoaderExamples LoaderFacts PipelineFacts.

(** X14: a graph returned by the loader carries under the name p a map of
    type double with one entry per edge, each equal to [prop_value]; the
    collection builder therefore never raises a validation error on it and
    returns as many RR sets as were asked for. *)
Theorem loaded_graph_passes_validation {RNG : Type}
    (randint : nat → nat → RNG → nat * RNG) (rand : nat → RNG → list Q * RNG)
    (path_exists : string → bool)
    (read_csv : string → string → option string → compression
                → load_exn + list (Z * Z))
    (ravel_K : list (Z * Z) → list Z)
    (file_path : string) (directed : bool) (sep : string) (comment : option string)
    (prop_type : string) (prop_value : Q) (r : loaded) :
  ravel_contract ravel_K →
  load_graph_from_edge_list path_exists read_csv ravel_K file_path directed sep comment
    prop_type prop_value = inr r →
  ∃ p_map,
    edge_properties (graph r) !! "p"%string = Some p_map
    ∧ value_type p_map = "double"%string
    ∧ a p_map = replicate (num_edges (graph r)) prop_value
    ∧ ∀ num_samples rng,
        ∃ rr_sets,
          (generate_rr_sets_collection randint rand (graph r) num_samples rng).1
          = Ok rr_sets
          ∧ length rr_sets = Z.to_nat num_samples.
Proof.
  intros Hravel (rows & _ & _ & _ & _ & _ & _ & Hp & _)%load_success; [|done].
  exists (filled_double_map (num_edges (graph r)) prop_value).
  assert (Hlook : edge_properties (graph r) !! "p"%string
                  = Some (filled_double_map (num_edges (graph r)) prop_value)).
  { rewrite Hp. apply lookup_singleton_eq. }
  split_and!; [done..|]. intros num_samples rng.
  destruct (collection_of_valid randint rand (graph r) num_samples rng)
    as (p_map & Hp' & ->).
  { eexists. split; [done|]. right. by vm_compute. }
  eexists. split; [done|].
  by destruct (sample_times_spec randint rand (graph r) p_map (Z.to_nat num_samples) rng)
    as (_ & ? & _).
Qed.

Lemma loaded_graph_passes_validation_witness :
  ∃ p_map,
    edge_properties (graph sample_loaded) !! "p"%string = Some p_map
    ∧ value_type p_map = "double"%string
    ∧ a p_map = replicate (num_edges (graph sample_loaded)) (1 # 10)
    ∧ ∀ num_samples rng,
        ∃ rr_sets,
          (generate_rr_sets_collection counter_randint counter_rand
             (graph sample_loaded) num_samples rng).1 = Ok rr_sets
          ∧ length rr_sets = Z.to_nat num_samples.
Proof.
  apply (loaded_graph_passes_validation counter_randint counter_rand
           sample_exists sample_read_csv ravel_columns
           "edges.txt" true " " None "uniform" (1 # 10)).
  - exact ravel_columns_contract.
  - exact sample_load.
Defined.

(** X15: on a collection the builder returns for a graph, the selector
    called with that graph's vertex count never raises [IndexError]; when
    the graph came from the loader, every seed it returns is a vertex that
    the returned id map sends back to an id of the file. *)
Theorem loaded_pipeline_seeds {RNG : Type}
    (randint : nat → nat → RNG → nat * RNG) (rand : nat → RNG → list Q * RNG)
    (path_exists : string → bool)
    (read_csv : string → string → option string → compression
                → load_exn + list (Z * Z))
    (ravel_K : list (Z * Z) → list Z)
    (file_path : string) (directed : bool) (sep : string) (comment : option string)
    (prop_type : string) (prop_value : Q) (r : loaded)
    (num_samples : Z) (rng : RNG) (rr_sets : list (gset nat)) (k : Z) :
  ravel_contract ravel_K →
  load_graph_from_edge_list path_exists read_csv ravel_K file_path directed sep comment
    prop_type prop_value = inr r →
  (generate_rr_sets_collection randint rand (graph r) num_samples rng).1 = Ok rr_sets →
  find_seed_set (int_set <$> rr_sets) k (num_vertices (graph r)) ≠ Raise IndexError
  ∧ ∀ seeds,
      find_seed_set (int_set <$> rr_sets) k (num_vertices (graph r)) = Ok seeds →
      Forall (λ v, ∃ x rows row,
                 compact_to_original r !! v = Some x
                 ∧ read_csv file_path sep comment
                     (if ends_with ".gz" file_path then Gzip else Infer) = inr rows
                 ∧ row ∈ rows ∧ (x = row.1 ∨ x = row.2)) seeds.
Proof.
  intros Hravel (rows & _ & Hread & _ & _ & _ & Hn & _ & Hc2o)%load_success Hcoll;
    [|done].
  apply collection_in_bounds in Hcoll. split.
  - intros Hraise. by destruct (find_seed_set_raises _ _ _ _ Hcoll Hraise) as [[? _]|?].
  - intros seeds [_ Hall]%find_seed_set_seeds.
    eapply Forall_impl; [done|]. simpl. intros v Hv. rewrite Hn in Hv.
    destruct (lookup_lt_is_Some_2 _ _ Hv) as [x Hx].
    assert (Hin : x ∈ pd_unique (ravel_K (cleaned rows)))
      by by eapply list_elem_of_lookup_2.
    apply (unique_nodes_used ravel_K Hravel) in Hin
      as (row & [Hrow _]%elem_of_cleaned & Hxr).
    exists x, rows, row. split_and!; [|done..].
    by rewrite Hc2o, compact_to_original_lookup.
Qed.

Lemma loaded_pipeline_seeds_witness :
  find_seed_set (int_set <$> [{[1]}; {[3]}; {[1]}]) 2
    (num_vertices (graph sample_loaded))
  ≠ Raise IndexError
  ∧ ∀ seeds,
      find_seed_set (int_set <$> [{[1]}; {[3]}; {[1]}]) 2
        (num_vertices (graph sample_loaded))
      = Ok seeds →
      Forall (λ v, ∃ x rows row,
                 compact_to_original sample_loaded !! v = Some x
                 ∧ sample_read_csv "edges.txt" " " None
                     (if ends_with ".gz" "edges.txt" then Gzip else Infer) = inr rows
                 ∧ row ∈ rows ∧ (x = row.1 ∨ x = row.2)) seeds.
Proof.
  apply (loaded_pipeline_seeds counter_randint counter_rand
           sample_exists sample_read_csv ravel_columns
           "edges.txt" true " " None "uniform" (1 # 10) sample_loaded 3 1).
  - exact ravel_columns_contract.
  - exact sample_load.
  - vm_compute. reflexivity.
Defined.

(** X16: on a graph with at least one vertex that passes validation, with
    a budget of at least one and between one and 2^31 - 1 samples, the
    builder followed by the selector raises nothing and returns a seed set
    that is not empty and consists of vertices of the graph. *)
Theorem pipeline_selects_a_seed {RNG : Type}
    (randint : nat → nat → RNG → nat * RNG) (rand : nat → RNG → list Q * RNG)
    (g : Graph) (num_samples k : Z) (rng : RNG) :
  randint_contract randint → passes_validation g → 0 < num_vertices g →
  (0 < num_samples ≤ INT32_MAX)%Z → (0 < k)%Z →
  ∃ rr_sets seeds,
    (generate_rr_sets_collection randint rand g num_samples rng).1 = Ok rr_sets
    ∧ find_seed_set (int_set <$> rr_sets) k (num_vertices g) = Ok seeds
    ∧ seeds ≠ []
    ∧ Forall (λ v, v < num_vertices g) seeds.
Proof.
  intros Hint Hvalid Hn Hns Hk.
  destruct (collection_of_valid randint rand g num_samples rng Hvalid)
    as (p_map & Hp & Hcoll).
  set (rr_sets := (sample_times randint rand (Z.to_nat num_samples) g p_map rng).1) in *.
  pose proof (collection_in_bounds randint rand g num_samples rng rr_sets Hcoll) as Hin.
  destruct (sample_times_spec randint rand g p_map (Z.to_nat num_samples) rng)
    as (_ & Hlen & _). fold rr_sets in Hlen.
  destruct (find_seed_set_returns (int_set <$> rr_sets) k (num_vertices g) Hin Hn)
    as [seeds Hrun]; [rewrite length_fmap; lia|].
  exists rr_sets, seeds.
  split_and!; [done|done| |by destruct (find_seed_set_seeds _ _ _ _ Hrun)].
  destruct (first_sample_has_root randint rand g p_map (Z.to_nat num_samples) rng)
    as (s & v & Hs & Hv); [done|done|lia|]. fold rr_sets in Hs.
  destruct (decide (Z.of_nat (length seeds) < k)%Z) as [Hshort|Hfull].
  - destruct (short_run_covers _ _ _ _ Hin Hrun Hshort 0 (int_set s) (Z.of_nat v))
      as (u & Hu & _).
    { by rewrite list_lookup_fmap, Hs. }
    { apply elem_of_map. by exists v. }
    intros ->. by apply elem_of_nil in Hu.
  - intros ->. simpl in Hfull. lia.
Qed.

Lemma pipeline_selects_a_seed_witness :
  ∃ rr_sets seeds,
    (generate_rr_sets_collection counter_randint counter_rand chain_graph 3 1).1
    = Ok rr_sets
    ∧ find_seed_set (int_set <$> rr_sets) 2 (num_vertices chain_graph) = Ok seeds
    ∧ seeds ≠ []
    ∧ Forall (λ v, v < num_vertices chain_graph) seeds.
Proof.
  apply (pipeline_selects_a_seed counter_randint counter_rand chain_graph 3 2 1).
  - exact counter_randint_contract.
  - eexists. split; [by vm_compute|]. right. by vm_compute.
  - simpl. lia.
  - by vm_compute.
  - lia.
Defined.

End PipelineProperties.

(** * The selector after every vertex has been selected *)

Module ExhaustedTable.
Import Coverage CoverageSpec CoverageExamples CoverageFacts SelectionSpec SelectionFacts.

Lemma cover_loop_covered (rr : list (gset Z)) (l : list nat)
    (gains : list Z) (mask : list bool) :
  (∀ i, i ∈ l → mask !! i = Some true) →
  for_each (cover rr) (gains, mask) l = Ok (gains, mask).
Proof.
  induction l as [|i l IH]; intros Hl; [done|]. simpl.
  unfold cover at 1, getitem. rewrite (Hl i) by by left. simpl.
  apply IH. intros j Hj. apply Hl. by right.
Qed.

Lemma argmax_constant (l : list Z) (c : Z) (r : nat) :
  (∀ u gu, l !! u = Some gu → gu = c) → argmax l = Ok r → r = 0.
Proof.
  intros Hall (g & Hg & _ & Hfirst)%argmax_first_max.
  destruct r as [|r]; [done|]. exfalso.
  destruct (lookup_lt_is_Some_2 l 0) as [g0 Hg0].
  { apply lookup_lt_Some in Hg. lia. }
  specialize (Hfirst 0 g0 Hg0 ltac:(lia)).
  rewrite (Hall _ _ Hg), (Hall _ _ Hg0) in Hfirst. lia.
Qed.

(** X17: in a state the loop passes through in which every vertex has been
    selected, one more pass does not break: it appends vertex 0 to the seed
    set once more and leaves the gain table and the covered mask as they
    are. *)
Theorem exhausted_table_repeats_vertex_zero (rr_sets : list (gset Z))
    (num_vertices : nat) (st : state) :
  reachable rr_sets num_vertices st → 0 < num_vertices →
  (∀ u, u < num_vertices → u ∈ seed_set st) →
  select_step rr_sets (build_index rr_sets num_vertices) st
  = Ok (Some (State (marginal_gains st) (covered_rr_mask st) (seed_set st ++ [0]))).
Proof.
  intros Hreach Hn Hall.
  pose proof (reachable_shape _ _ _ Hreach) as (Hlg & Hlm & Hsent).
  assert (Hgains : ∀ u gu, marginal_gains st !! u = Some gu → gu = (-1)%Z).
  { intros u gu Hu. assert (u < num_vertices) as Hlt.
    { rewrite <- Hlg. by eapply lookup_lt_Some. }
    pose proof (Hsent u (Hall u Hlt)). congruence. }
  destruct (lookup_lt_is_Some_2 (marginal_gains st) 0) as [g0 Hg0]; [lia|].
  pose proof (Hgains _ _ Hg0) as ->.
  unfold select_step. destruct (argmax (marginal_gains st)) as [best|e] eqn:Hbest.
  2: { apply argmax_raises in Hbest as [Hnil _]. by rewrite Hnil in Hg0. }
  pose proof (argmax_constant _ _ _ Hgains Hbest) as ->. simpl.
  unfold getitem. rewrite Hg0. simpl.
  rewrite list_insert_id by done.
  rewrite cover_loop_covered; [done|].
  intros i Hi. rewrite build_index_get, bool_decide_eq_true_2 in Hi by lia.
  apply elem_of_positions in Hi as (s & Hs & H0).
  apply (reachable_mask _ _ _ i Hreach). exists 0, s. split_and!; [|done..].
  by apply Hall.
Qed.

Lemma exhausted_table_repeats_vertex_zero_witness :
  select_step singleton_rr_sets (build_index singleton_rr_sets 1)
    (State [-1]%Z [true] [0])
  = Ok (Some (State [-1]%Z [true] [0; 0])).
Proof.
  apply (exhausted_table_repeats_vertex_zero singleton_rr_sets 1
           (State [-1]%Z [true] [0])).
  - exists (State [1]%Z [false] []), 1. split; vm_compute; reflexivity.
  - lia.
  - intros u Hu. assert (u = 0) as -> by lia. by left.
Defined.

End ExhaustedTable.
